(** * RaiiObjectPool: a shallow embedding of [RaiiObjectPool.hpp]

    The development follows the header top to bottom: the data members of
    [RaiiObjectPool<T>] and of its nested [ReturnToPoolDeleter], then the
    member functions, then the behaviour of [std::unique_ptr] the header
    relies on (the destructor of a handle runs its deleter), and finally a
    small client language (create / acquire / dispose / reset) whose runs
    give the reachable states.  The definitions come first; the scenarios
    of the test file and the properties of the pool follow.

    Conventions.
    - A [T*] is [option addr]: [None] is [nullptr].
    - A [std::weak_ptr<RaiiObjectPool<T>>] is [option PoolId]; it resolves
      ([lock()]) when the identifier is still bound in the store of live
      pools.  Identifiers are never reused.
    - [size_t] is a 64-bit unsigned integer, kept in [N]; [++] wraps.
    - C++ exceptions are explicit: a call returns [Ok], [Throw e] or
      [Terminate] ([std::terminate], reached when an exception leaves a
      destructor), together with the state it leaves behind. *)

From Stdlib Require Import NArith Lia.
From stdpp Require Import base option list gmap.

Open Scope N_scope.

(** ** Data model *)

Definition addr := nat.
Definition PoolId := nat.

(** The two kinds of exception the header tells apart: its handler is
    [catch(const std::bad_alloc&)]. *)
Inductive exception :=
  | bad_alloc
  | other_exception (what : nat).

Definition is_bad_alloc (e : exception) : bool :=
  match e with bad_alloc => true | other_exception _ => false end.

Inductive Result (A : Type) :=
  | Ok (a : A)
  | Throw (e : exception)
  | Terminate.
Arguments Ok {A} a.
Arguments Throw {A} e.
Arguments Terminate {A}.

(** [size_t] arithmetic. *)
Definition SIZE_MAX : N := 2 ^ 64 - 1.
Definition size_incr (n : N) : N := (n + 1) mod 2 ^ 64.

(** [enum : size_t { Unlimited = 0 }] *)
Definition Unlimited : N := 0.

(** [class ReturnToPoolDeleter]: one data member. *)
Record ReturnToPoolDeleter := mkDeleter {
  _ptrToOwnerPool : option PoolId
}.

(** [using UniquePtrToObject = std::unique_ptr<T, ReturnToPoolDeleter>] *)
Record UniquePtrToObject := mkUniquePtr {
  get : option addr;
  get_deleter : ReturnToPoolDeleter
}.

(** [explicit operator bool] of [std::unique_ptr]. *)
Definition to_bool (h : UniquePtrToObject) : bool :=
  match get h with Some _ => true | None => false end.

(** [using ObjectFactory = std::function<T* ()>].  The callback is opaque;
    what the pool sees of it is the outcome of its successive invocations.
    [outcome k] is what the [k]-th invocation does, [invoked] counts the
    invocations made so far. *)
Inductive FactoryResult :=
  | Returns (p : option addr)
  | Raises (e : exception).

Record ObjectFactory := mkFactory {
  outcome : nat → FactoryResult;
  invoked : nat
}.

Definition call (f : ObjectFactory) : FactoryResult * ObjectFactory :=
  (outcome f (invoked f), mkFactory (outcome f) (S (invoked f))).

(** The data members of [RaiiObjectPool<T>] ([_mutex] guards every member
    function and has no state of its own in a sequential run).  The head of
    [_poolContainer] is the top of the [std::stack]. *)
Record RaiiObjectPool := mkPool {
  _limit : N;
  _allocated : N;
  _factory : ObjectFactory;
  _poolContainer : list UniquePtrToObject
}.

(** Observable events: calls of [add] and executions of [delete]. *)
Inductive Event :=
  | EvAdd (pool : PoolId) (p : addr)
  | EvDelete (p : addr).

(** The pools that are alive (owned by at least one [shared_ptr]), the next
    unused identifier, and the events so far, most recent first. *)
Record World := mkWorld {
  pools : gmap PoolId RaiiObjectPool;
  next_pool : PoolId;
  trace : list Event
}.

Definition store (id : PoolId) (self : RaiiObjectPool) (w : World) : World :=
  mkWorld (<[id := self]> (pools w)) (next_pool w) (trace w).

Definition log (e : Event) (w : World) : World :=
  mkWorld (pools w) (next_pool w) (e :: trace w).

(** [std::weak_ptr::lock()] *)
Definition lock (wp : option PoolId) (w : World) : option (PoolId * RaiiObjectPool) :=
  match wp with
  | Some id =>
      match pools w !! id with
      | Some self => Some (id, self)
      | None => None
      end
  | None => None
  end.

(** ** Implementation for RaiiObjectPool *)

(** [RaiiObjectPool(ObjectFactory factory, size_t limit)] *)
Definition RaiiObjectPool_ctor (factory : ObjectFactory) (limit : N) : RaiiObjectPool :=
  mkPool limit 0 factory [].

(** [static SharedPtr create(ObjectFactory factory, size_t limit = Unlimited)] *)
Definition create (factory : ObjectFactory) (limit : N) (w : World) : PoolId * World :=
  let id := next_pool w in
  (id, mkWorld (<[id := RaiiObjectPool_ctor factory limit]> (pools w)) (S id) (trace w)).

(** [UniquePtrToObject acquire()].  [this] is what [shared_from_this()]
    yields.  In the second branch the counter is incremented first and the
    factory is called afterwards, as in the source. *)
Definition acquire (this : PoolId) (self : RaiiObjectPool)
    : Result UniquePtrToObject * RaiiObjectPool :=
  match _poolContainer self with
  | top :: rest =>
      (Ok top, mkPool (_limit self) (_allocated self) (_factory self) rest)
  | [] =>
      if (_limit self =? Unlimited) || (_allocated self <? _limit self) then
        let allocated' := size_incr (_allocated self) in
        let (r, factory') := call (_factory self) in
        let self' := mkPool (_limit self) allocated' factory' [] in
        match r with
        | Returns p => (Ok (mkUniquePtr p (mkDeleter (Some this))), self')
        | Raises e => (Throw e, self')
        end
      else
        (Ok (mkUniquePtr None (mkDeleter None)), self)
  end.

(** [void add(UniquePtrToObject ptr)].  [fault] is what
    [_poolContainer.push] (or taking the lock) does on this call: [None]
    when it succeeds, [Some e] when it throws [e].  When it throws, the
    container is unchanged and [ptr] has not been moved from: it still owns
    its object when the call is left. *)
Definition add (fault : option exception) (self : RaiiObjectPool) (ptr : UniquePtrToObject)
    : Result unit * RaiiObjectPool :=
  match fault with
  | None =>
      (Ok (), mkPool (_limit self) (_allocated self) (_factory self)
                     (ptr :: _poolContainer self))
  | Some e => (Throw e, self)
  end.

Definition limit (self : RaiiObjectPool) : N := _limit self.
Definition allocated (self : RaiiObjectPool) : N := _allocated self.
Definition pooled (self : RaiiObjectPool) : N := N.of_nat (length (_poolContainer self)).

(** ** Implementation for ReturnToPoolDeleter *)

(** [ReturnToPoolDeleter(std::weak_ptr<RaiiObjectPool<T>> ptrToOwnerPool = {})] *)
Definition ReturnToPoolDeleter_ctor (ptrToOwnerPool : option PoolId) : ReturnToPoolDeleter :=
  mkDeleter ptrToOwnerPool.

(** [void detachFromPool()] *)
Definition detachFromPool (d : ReturnToPoolDeleter) : ReturnToPoolDeleter :=
  mkDeleter None.

(** [delete ptrToReleasedObject;].  The execution is logged.  In C++ a
    second [delete] of the same object has no defined behaviour; the
    properties below that state what a disposal does are about runs in
    which an object is deleted at most once. *)
Definition delete_object (p : addr) (w : World) : Result unit * World :=
  (Ok (), log (EvDelete p) w).

(** [~unique_ptr()]: runs the deleter when the pointer is not null.  A
    destructor is [noexcept], so an exception leaving the deleter ends the
    program. *)
Definition unique_ptr_dtor
    (deleter_call : ReturnToPoolDeleter → addr → World → Result unit * World)
    (h : UniquePtrToObject) (w : World) : Result unit * World :=
  match get h with
  | None => (Ok (), w)
  | Some p =>
      match deleter_call (get_deleter h) p w with
      | (Ok _, w') => (Ok (), w')
      | (_, w') => (Terminate, w')
      end
  end.

(** The body of [void operator()(T* ptrToReleasedObject)].

    The argument of [pool->add(...)] is a temporary handle that owns the
    object.  When [add] returns, the handle has been moved into the
    container.  When [add] throws, the handle still owns the object and is
    destroyed while the exception leaves the [try] block, before the handler
    runs; [unwind] is the deleter call that destruction makes. *)
Definition operator_call_body
    (unwind : ReturnToPoolDeleter → addr → World → Result unit * World)
    (fault : option exception)
    (d : ReturnToPoolDeleter) (ptrToReleasedObject : addr) (w : World)
    : Result unit * World :=
  match lock (_ptrToOwnerPool d) w with
  | Some (pool, self) =>
      let tmp := mkUniquePtr (Some ptrToReleasedObject) (ReturnToPoolDeleter_ctor (Some pool)) in
      let w0 := log (EvAdd pool ptrToReleasedObject) w in
      match add fault self tmp with
      | (Ok _, self') => (Ok (), store pool self' w0)
      | (Throw e, self') =>
          match unique_ptr_dtor unwind tmp (store pool self' w0) with
          | (Ok _, w1) =>
              if is_bad_alloc e then delete_object ptrToReleasedObject w1
              else (Throw e, w1)
          | (_, w1) => (Terminate, w1)
          end
      | (Terminate, self') => (Terminate, store pool self' w0)
      end
  | None => delete_object ptrToReleasedObject w
  end.

(** [operator()] itself.  [faults] lists the exceptions thrown by the
    successive insertions attempted during this call; once the list is
    exhausted the insertion succeeds: [[]] is a disposal whose insertion
    works, [[bad_alloc]] one whose first insertion fails and whose second
    works.  (A run in which the insertion fails for ever does not return,
    and is not represented.) *)
Fixpoint operator_call (faults : list exception)
    (d : ReturnToPoolDeleter) (ptrToReleasedObject : addr) (w : World)
    : Result unit * World :=
  match faults with
  | [] =>
      operator_call_body (λ _ _ w', (Ok (), w')) None d ptrToReleasedObject w
  | e :: faults' =>
      operator_call_body (operator_call faults') (Some e) d ptrToReleasedObject w
  end.

(** Disposal of a handle held by a caller. *)
Definition dispose (faults : list exception) (h : UniquePtrToObject) (w : World)
    : Result unit * World :=
  unique_ptr_dtor (operator_call faults) h w.

(** [~RaiiObjectPool()]: [while (!empty) { top().get_deleter().detachFromPool(); pop(); }].
    [pop()] destroys the entry, which runs its policy; [faults] is what the
    insertions would do, were the policy to attempt any. *)
Fixpoint destructor_loop (faults : list exception)
    (stack : list UniquePtrToObject) (w : World) : Result unit * World :=
  match stack with
  | [] => (Ok (), w)
  | top :: rest =>
      let top' := mkUniquePtr (get top) (detachFromPool (get_deleter top)) in
      match unique_ptr_dtor (operator_call faults) top' w with
      | (Ok _, w') => destructor_loop faults rest w'
      | (r, w') => (r, w')
      end
  end.

Definition RaiiObjectPool_dtor (faults : list exception) (self : RaiiObjectPool) (w : World)
    : Result unit * World :=
  destructor_loop faults (_poolContainer self) w.

(** Dropping the last [shared_ptr] to a pool ([pool.reset()] in the tests):
    from then on no [weak_ptr] to it resolves, and its destructor runs. *)
Definition reset (faults : list exception) (id : PoolId) (w : World)
    : option (Result unit * World) :=
  match pools w !! id with
  | Some self =>
      Some (RaiiObjectPool_dtor faults self
              (mkWorld (delete id (pools w)) (next_pool w) (trace w)))
  | None => None
  end.

(** ** Clients

    What a caller can do with the public interface: create a pool, call
    [acquire] on a live pool, let go of a handle it holds, and drop its
    reference to a pool. *)

(** [pool->acquire()] through a [shared_ptr] to a live pool. *)
Definition acquire_on (id : PoolId) (w : World)
    : option (Result UniquePtrToObject * World) :=
  match pools w !! id with
  | Some self =>
      let (r, self') := acquire id self in Some (r, store id self' w)
  | None => None
  end.

(** What the tests read after each call. *)
Record Observation := mkObs {
  result : Result UniquePtrToObject;
  allocated_after : N;
  pooled_after : N
}.

Definition observe (id : PoolId) (r : Result UniquePtrToObject) (w : World) : Observation :=
  match pools w !! id with
  | Some self => mkObs r (allocated self) (pooled self)
  | None => mkObs r 0 0
  end.

(** [for (i = 1; i <= n; ++i) { auto obj = pool->acquire(); ... }] *)
Fixpoint acquire_loop (n : nat) (id : PoolId) (w : World)
    : option (list Observation * World) :=
  match n with
  | O => Some ([], w)
  | S n' =>
      match acquire_on id w with
      | Some (r, w1) =>
          match acquire_loop n' id w1 with
          | Some (obs, w2) => Some (observe id r w1 :: obs, w2)
          | None => None
          end
      | None => None
      end
  end.

(** The handles a loop of [acquire] calls handed out, first call first. *)
Definition handles_of (obs : list Observation) : list UniquePtrToObject :=
  omap (λ o, match result o with Ok h => Some h | _ => None end) obs.

(** Letting go of handles one after the other, first in the list first; no
    insertion fails. *)
Fixpoint release_all (hs : list UniquePtrToObject) (w : World) : Result unit * World :=
  match hs with
  | [] => (Ok (), w)
  | h :: hs' =>
      match dispose [] h w with
      | (Ok _, w') => release_all hs' w'
      | (r, w') => (r, w')
      end
  end.

(** The state of a client program: the world and the handles it holds. *)
Record Program := mkProgram {
  world : World;
  handles : list UniquePtrToObject
}.

Inductive Op :=
  | OpCreate (factory : nat → FactoryResult) (limit : N)
  | OpAcquire (id : PoolId)
  | OpDispose (k : nat) (faults : list exception)
  | OpReset (id : PoolId) (faults : list exception).

(** One client operation.  [None] when the operation cannot be performed
    (a limit that is not a [size_t], an identifier or index that denotes
    nothing) or when it ends the program.  An exception thrown by [acquire]
    is caught by the client, which goes on. *)
Definition step (op : Op) (s : Program) : option Program :=
  match op with
  | OpCreate f lim =>
      if lim <=? SIZE_MAX then
        Some (mkProgram (snd (create (mkFactory f 0) lim (world s))) (handles s))
      else None
  | OpAcquire id =>
      match acquire_on id (world s) with
      | Some (Ok h, w') => Some (mkProgram w' (handles s ++ [h]))
      | Some (Throw _, w') => Some (mkProgram w' (handles s))
      | _ => None
      end
  | OpDispose k faults =>
      match handles s !! k with
      | Some h =>
          match dispose faults h (world s) with
          | (Ok _, w') => Some (mkProgram w' (delete k (handles s)))
          | _ => None
          end
      | None => None
      end
  | OpReset id faults =>
      match reset faults id (world s) with
      | Some (Ok _, w') => Some (mkProgram w' (handles s))
      | _ => None
      end
  end.

Fixpoint run (ops : list Op) (s : Program) : option Program :=
  match ops with
  | [] => Some s
  | op :: ops' =>
      match step op s with
      | Some s' => run ops' s'
      | None => None
      end
  end.

Definition initial : Program := mkProgram (mkWorld ∅ 0%nat []) [].

(** Whether an invocation of the factory returned (rather than threw). *)
Definition has_returned (r : FactoryResult) : bool :=
  match r with Returns _ => true | Raises _ => false end.

(** How many of the first [n] invocations returned. *)
Fixpoint count_returned (outcome : nat → FactoryResult) (n : nat) : nat :=
  match n with
  | O => O
  | S k => ((if has_returned (outcome k) then 1 else 0) + count_returned outcome k)%nat
  end.

(** The number of invocations of the factory, made so far, that returned. *)
Definition returned (f : ObjectFactory) : nat :=
  count_returned (outcome f) (invoked f).

(** ** Vocabulary of the properties *)

(** The pointer an invocation of the factory returned. *)
Definition returned_ptr (r : FactoryResult) : option addr :=
  match r with Returns p => p | Raises _ => None end.

(** A full handle whose policy refers to pool [id], as [acquire] and the
    policy build them. *)
Definition checked_out_from (id : PoolId) (h : UniquePtrToObject) : Prop :=
  ∃ p, h = mkUniquePtr (Some p) (mkDeleter (Some id)).

(** The same as a test, on any handle. *)
Definition owned_by (id : PoolId) (h : UniquePtrToObject) : bool :=
  to_bool h && bool_decide (_ptrToOwnerPool (get_deleter h) = Some id).

(** How many of the handles [hs] hold an object of pool [id]. *)
Fixpoint checked_out (id : PoolId) (hs : list UniquePtrToObject) : nat :=
  match hs with
  | [] => O
  | h :: hs' => ((if owned_by id h then 1 else 0) + checked_out id hs')%nat
  end.

(** What holds of a live pool [id] in a reachable state, [next] being the
    next unused identifier and [hs] the handles held by the client. *)
Definition pool_ok (next : PoolId) (hs : list UniquePtrToObject)
    (id : PoolId) (self : RaiiObjectPool) : Prop :=
  (id < next)%nat
  ∧ _limit self ≤ SIZE_MAX
  ∧ Forall (checked_out_from id) (_poolContainer self)
  ∧ _allocated self = N.of_nat (invoked (_factory self)) mod 2 ^ 64
  ∧ (_limit self ≠ Unlimited → N.of_nat (invoked (_factory self)) ≤ _limit self)
  ∧ (length (_poolContainer self) + checked_out id hs ≤ invoked (_factory self))%nat.

Definition known_owner (next : PoolId) (h : UniquePtrToObject) : Prop :=
  ∀ id, _ptrToOwnerPool (get_deleter h) = Some id → (id < next)%nat.

Definition consistent (s : Program) : Prop :=
  (∀ id self, pools (world s) !! id = Some self →
     pool_ok (next_pool (world s)) (handles s) id self)
  ∧ Forall (known_owner (next_pool (world s))) (handles s).

(** The handle a client keeps from a call of [acquire]. *)
Definition kept (r : Result UniquePtrToObject) : list UniquePtrToObject :=
  match r with Ok h => [h] | _ => [] end.

(** ** Fixtures

    The factory of the tests returns a new object on every invocation. *)

Definition fresh_objects : nat → FactoryResult := λ k, Returns (Some (100 + k)%nat).

Definition test_world (limit : N) : PoolId * World :=
  create (mkFactory fresh_objects 0) limit (mkWorld ∅ 0%nat []).

(** A factory that cannot construct anything. *)
Definition throwing_factory : nat → FactoryResult :=
  λ _, Raises (other_exception 1).

(** A short client run: a pool of limit 2, three calls of [acquire] (the
    third finds the pool exhausted), and the release of the first handle. *)
Definition sample_ops : list Op :=
  [OpCreate fresh_objects 2; OpAcquire 0%nat; OpAcquire 0%nat; OpAcquire 0%nat;
   OpDispose 0%nat []].

Definition sample_pool : RaiiObjectPool :=
  mkPool 2 2 (mkFactory fresh_objects 2)
         [mkUniquePtr (Some 100%nat) (mkDeleter (Some 0%nat))].

Definition sample_state : Program :=
  mkProgram (mkWorld {[0%nat := sample_pool]} 1%nat [EvAdd 0%nat 100%nat])
            [mkUniquePtr (Some 101%nat) (mkDeleter (Some 0%nat));
             mkUniquePtr None (mkDeleter None)].

(** The same with an unlimited pool: one object acquired and released. *)
Definition sample_ops_unlimited : list Op :=
  [OpCreate fresh_objects Unlimited; OpAcquire 0%nat; OpDispose 0%nat []].

Definition sample_pool_unlimited : RaiiObjectPool :=
  mkPool Unlimited 1 (mkFactory fresh_objects 1)
         [mkUniquePtr (Some 100%nat) (mkDeleter (Some 0%nat))].

Definition sample_state_unlimited : Program :=
  mkProgram (mkWorld {[0%nat := sample_pool_unlimited]} 1%nat [EvAdd 0%nat 100%nat]) [].

(** The state after one more call of [acquire] in [sample_state]. *)
Definition sample_state_next : Program :=
  mkProgram
    (mkWorld {[0%nat := mkPool 2 2 (mkFactory fresh_objects 2) []]} 1%nat
             [EvAdd 0%nat 100%nat])
    [mkUniquePtr (Some 101%nat) (mkDeleter (Some 0%nat));
     mkUniquePtr None (mkDeleter None);
     mkUniquePtr (Some 100%nat) (mkDeleter (Some 0%nat))].

(** ** Vocabulary of the further properties *)

(** What [acquire] hands back for an outcome of the factory. *)
Definition handle_result (this : PoolId) (r : FactoryResult) : Result UniquePtrToObject :=
  match r with
  | Returns p => Ok (mkUniquePtr p (mkDeleter (Some this)))
  | Raises e => Throw e
  end.

(** The empty handle [acquire] returns when the pool is exhausted. *)
Definition empty_handle : UniquePtrToObject := mkUniquePtr None (mkDeleter None).

(** The pool a client operation works on, if any: the pool named by the
    call, or the owner of the full handle that is let go. *)
Definition target (op : Op) (s : Program) : option PoolId :=
  match op with
  | OpCreate _ _ => None
  | OpAcquire id => Some id
  | OpDispose k _ =>
      match handles s !! k with
      | Some h => if to_bool h then _ptrToOwnerPool (get_deleter h) else None
      | None => None
      end
  | OpReset id _ => Some id
  end.

(** Operations of a run in which no pool is dropped and no insertion fails. *)
Definition quiet_op (op : Op) : bool :=
  match op with
  | OpCreate _ _ => true
  | OpAcquire _ => true
  | OpDispose _ faults => match faults with [] => true | _ :: _ => false end
  | OpReset _ _ => false
  end.

(** What holds along such a run: every pool ever created is alive, every
    handle held is empty or refers to one of them, nothing was deleted. *)
Definition calm (s : Program) : Prop :=
  (∀ id, (id < next_pool (world s))%nat ↔ is_Some (pools (world s) !! id))
  ∧ Forall (λ h, match _ptrToOwnerPool (get_deleter h) with
                 | Some id => (id < next_pool (world s))%nat
                 | None => get h = None
                 end) (handles s)
  ∧ Forall (λ e, ∀ p, e ≠ EvDelete p) (trace (world s)).

(** Two pools side by side, before and after a call of [acquire] on the
    second one, whose factory throws. *)
Definition two_pools_ops : list Op :=
  [OpCreate fresh_objects 2; OpCreate throwing_factory 1].

Definition first_pool : RaiiObjectPool :=
  RaiiObjectPool_ctor (mkFactory fresh_objects 0) 2.

Definition two_pools : Program :=
  mkProgram
    (mkWorld (<[1%nat := RaiiObjectPool_ctor (mkFactory throwing_factory 0) 1]>
                (<[0%nat := first_pool]> ∅)) 2%nat [])
    [].

Definition two_pools_next : Program :=
  mkProgram
    (mkWorld (<[1%nat := mkPool 1 1 (mkFactory throwing_factory 1) []]>
                (<[0%nat := first_pool]> ∅)) 2%nat [])
    [].

(** ** Tests

    The scenarios of [RaiiObjectPool_test.cpp], replayed on the model. *)

Example test_Constructor :
  let (id, w) := test_world Unlimited in
  (limit <$> pools w !! id, allocated <$> pools w !! id, pooled <$> pools w !! id)
  = (Some Unlimited, Some 0, Some 0).
Proof. reflexivity. Qed.

Example test_AcquirePastLimit :
  let (id, w) := test_world 3 in
  (match acquire_loop 3 id w with
   | Some (obs, w1) =>
       (to_bool <$> handles_of obs,
        match acquire_on id w1 with
        | Some (r, w2) => Some (observe id r w2)
        | None => None
        end)
   | None => ([], None)
   end)
  = ([true; true; true], Some (mkObs (Ok (mkUniquePtr None (mkDeleter None))) 3 0)).
Proof. vm_compute. reflexivity. Qed.

(** The objects constructed and not deleted: [_instances] of the tests. *)
Example test_AcquireAndReleaseCycle :
  let (id, w) := test_world Unlimited in
  match acquire_loop 4 id w with
  | Some (obs, w1) =>
      match release_all (handles_of obs) w1 with
      | (_, w2) =>
          match acquire_loop 4 id w2 with
          | Some (obs', w3) =>
              match release_all (handles_of obs') w3 with
              | (_, w4) =>
                  match reset [] id w4 with
                  | Some (_, w5) =>
                      ((λ o, (to_bool <$> kept (result o), allocated_after o, pooled_after o))
                         <$> obs,
                       (allocated <$> pools w2 !! id, pooled <$> pools w2 !! id),
                       (λ o, (to_bool <$> kept (result o), allocated_after o, pooled_after o))
                         <$> obs',
                       (allocated <$> pools w4 !! id, pooled <$> pools w4 !! id),
                       firstn 4 (trace w5))
                      = ([([true], 1, 0); ([true], 2, 0); ([true], 3, 0); ([true], 4, 0)],
                         (Some 4, Some 4),
                         [([true], 4, 3); ([true], 4, 2); ([true], 4, 1); ([true], 4, 0)],
                         (Some 4, Some 4),
                         [EvDelete 103%nat; EvDelete 102%nat; EvDelete 101%nat;
                          EvDelete 100%nat])
                  | None => False
                  end
              end
          | None => False
          end
      end
  | None => False
  end.
Proof. vm_compute. reflexivity. Qed.

Example test_AcquireDeletePoolRelease :
  let (id, w) := test_world Unlimited in
  match acquire_loop 4 id w with
  | Some (obs, w1) =>
      match reset [] id w1 with
      | Some (_, w2) =>
          match release_all (handles_of obs) w2 with
          | (r, w3) =>
              (trace w2, r, trace w3)
              = ([], Ok (),
                 [EvDelete 103%nat; EvDelete 102%nat; EvDelete 101%nat; EvDelete 100%nat])
          end
      | None => False
      end
  | None => False
  end.
Proof. vm_compute. reflexivity. Qed.

(** ** The disposal policy *)

Section Deleter.
Implicit Types (d : ReturnToPoolDeleter) (p : addr) (w : World).
Implicit Types (faults : list exception).

(** A policy without owner deletes, whatever the insertions would do. *)
Lemma operator_call_no_owner faults d p w :
  _ptrToOwnerPool d = None →
  operator_call faults d p w = (Ok (), log (EvDelete p) w).
Proof.
  intros Hd. destruct faults; simpl; unfold operator_call_body;
    rewrite Hd; reflexivity.
Qed.

(** So does a policy whose owner is gone. *)
Lemma operator_call_expired faults d p w id :
  _ptrToOwnerPool d = Some id → pools w !! id = None →
  operator_call faults d p w = (Ok (), log (EvDelete p) w).
Proof.
  intros Hd Hw. destruct faults; simpl; unfold operator_call_body, lock;
    rewrite Hd, Hw; reflexivity.
Qed.

(** The owner is alive and the insertion succeeds. *)
Lemma operator_call_recycles d p w id self :
  _ptrToOwnerPool d = Some id → pools w !! id = Some self →
  operator_call [] d p w =
    (Ok (),
     store id (mkPool (_limit self) (_allocated self) (_factory self)
                 (mkUniquePtr (Some p) (mkDeleter (Some id)) :: _poolContainer self))
           (log (EvAdd id p) w)).
Proof.
  intros Hd Hw. simpl. unfold operator_call_body, lock.
  rewrite Hd, Hw. reflexivity.
Qed.

Lemma lock_Some wp w id self :
  lock wp w = Some (id, self) → wp = Some id ∧ pools w !! id = Some self.
Proof.
  unfold lock. destruct wp as [id'|]; [|done].
  destruct (pools w !! id') as [self'|] eqn:Hw; [|done].
  intros [= -> ->]. done.
Qed.

Lemma lock_None id w :
  lock (Some id) w = None → pools w !! id = None.
Proof. unfold lock. by destruct (pools w !! id). Qed.

(** Writing back the pool that is already stored changes nothing. *)
Lemma store_same id self w :
  pools w !! id = Some self → store id self w = w.
Proof.
  intros H. destruct w as [m n t]. unfold store. simpl in *.
  f_equal. by apply insert_id.
Qed.
End Deleter.

(** C10.  A policy that has been detached, and a policy constructed
    without owner, delete the object they are called on: the call returns
    normally, the only event is the [delete] (so [add] is not called), and
    the store of pools is left as it was, whether or not the pool the
    handle came from is alive.  Detaching is idempotent and the call does
    not change the policy, so this holds for every later disposal. *)
Theorem detached_policy_deletes_directly :
  ∀ (faults : list exception) (d : ReturnToPoolDeleter) (p : addr) (w : World),
    let detached := detachFromPool d in
    let ownerless := ReturnToPoolDeleter_ctor None in
    dispose faults (mkUniquePtr (Some p) detached) w = (Ok (), log (EvDelete p) w)
    ∧ dispose faults (mkUniquePtr (Some p) ownerless) w = (Ok (), log (EvDelete p) w)
    ∧ pools (log (EvDelete p) w) = pools w
    ∧ trace (log (EvDelete p) w) = EvDelete p :: trace w
    ∧ detachFromPool detached = detached.
Proof.
  intros faults d p w detached ownerless.
  unfold dispose, unique_ptr_dtor; simpl.
  rewrite !operator_call_no_owner by reflexivity.
  repeat split.
Qed.

(** C7.  Disposal of a full handle whose policy refers to pool [id], when
    the insertion does not fail.  If [id] is alive, the object is pushed on
    its recycle stack inside a new handle whose policy refers to [id]:
    [pooled()] grows by one, nothing else in the pool changes, and the only
    event is the call of [add] (no [delete]).  If [id] is gone, the object
    is deleted and the store of pools is untouched. *)
Theorem dispose_full_handle :
  ∀ (h : UniquePtrToObject) (p : addr) (id : PoolId) (w : World),
    get h = Some p →
    _ptrToOwnerPool (get_deleter h) = Some id →
    match pools w !! id with
    | Some self =>
        ∃ self' w',
          dispose [] h w = (Ok (), w')
          ∧ pools w' = <[id := self']> (pools w)
          ∧ _poolContainer self' =
              mkUniquePtr (Some p) (mkDeleter (Some id)) :: _poolContainer self
          ∧ pooled self' = pooled self + 1
          ∧ allocated self' = allocated self
          ∧ limit self' = limit self
          ∧ _factory self' = _factory self
          ∧ trace w' = EvAdd id p :: trace w
    | None =>
        ∀ faults, ∃ w',
          dispose faults h w = (Ok (), w')
          ∧ pools w' = pools w
          ∧ trace w' = EvDelete p :: trace w
    end.
Proof.
  intros h p id w Hp Hd.
  destruct (pools w !! id) as [self|] eqn:Hw.
  - eexists _, _. unfold dispose, unique_ptr_dtor. rewrite Hp.
    rewrite (operator_call_recycles _ _ _ _ _ Hd Hw).
    split; [reflexivity|]. simpl. repeat split.
    unfold pooled. simpl. lia.
  - intros faults. eexists. unfold dispose, unique_ptr_dtor. rewrite Hp.
    rewrite (operator_call_expired _ _ _ _ _ Hd Hw).
    repeat split.
Qed.

Lemma dispose_full_handle_witness :
  let w := snd (test_world Unlimited) in
  let self := RaiiObjectPool_ctor (mkFactory fresh_objects 0) Unlimited in
  let h := mkUniquePtr (Some 7%nat) (mkDeleter (Some 0%nat)) in
  get h = Some 7%nat
  ∧ _ptrToOwnerPool (get_deleter h) = Some 0%nat
  ∧ pools w !! 0%nat = Some self
  ∧ ∃ self' w',
      dispose [] h w = (Ok (), w')
      ∧ pools w' = <[0%nat := self']> (pools w)
      ∧ _poolContainer self' =
          mkUniquePtr (Some 7%nat) (mkDeleter (Some 0%nat)) :: _poolContainer self
      ∧ pooled self' = pooled self + 1
      ∧ allocated self' = allocated self
      ∧ limit self' = limit self
      ∧ _factory self' = _factory self
      ∧ trace w' = EvAdd 0%nat 7%nat :: trace w.
Proof.
  intros w self h. split; [reflexivity|]. split; [reflexivity|].
  split; [reflexivity|].
  exact (dispose_full_handle h 7%nat 0%nat w eq_refl eq_refl).
Defined.

(** ** Failure of the factory *)

(** When the factory throws, [acquire] throws the same exception, and the
    counter has already been incremented. *)
Lemma acquire_factory_throws this self e :
  _poolContainer self = [] →
  _limit self = Unlimited ∨ _allocated self < _limit self →
  outcome (_factory self) (invoked (_factory self)) = Raises e →
  ∃ self',
    acquire this self = (Throw e, self')
    ∧ allocated self' = size_incr (allocated self)
    ∧ pooled self' = pooled self
    ∧ invoked (_factory self') = S (invoked (_factory self)).
Proof.
  intros Hs Hl He. unfold acquire. rewrite Hs.
  assert ((_limit self =? Unlimited) || (_allocated self <? _limit self) = true) as ->.
  { apply orb_true_iff. destruct Hl as [Hl|Hl].
    - left. by apply N.eqb_eq.
    - right. by apply N.ltb_lt. }
  unfold call. rewrite He. eexists. split; [reflexivity|].
  unfold allocated, pooled. simpl. rewrite Hs. done.
Qed.

(** C1, evaluated.  A new unlimited pool whose factory throws: [acquire]
    throws the factory's exception, no invocation of the factory has
    returned, and [allocated()] has gone from 0 to 1. *)
Theorem acquire_counts_failed_construction :
  let self := RaiiObjectPool_ctor (mkFactory throwing_factory 0) Unlimited in
  ∃ self',
    acquire 0%nat self = (Throw (other_exception 1), self')
    ∧ allocated self = 0
    ∧ allocated self' = 1
    ∧ pooled self' = 0
    ∧ invoked (_factory self') = 1%nat
    ∧ returned (_factory self') = 0%nat.
Proof. simpl. eexists. repeat split. Qed.

(** ** Failure of the insertion *)

(** C8, evaluated.  The first handle of a new pool is let go; the
    insertion fails once with [std::bad_alloc] and works when it is tried
    again.  The handle passed to [add] still owns the object when the
    exception leaves the [try] block; its destructor calls the policy a
    second time, which inserts the object; the handler of the first call
    then deletes it.  Disposal returns normally, and the object is both on
    the recycle stack ([pooled()] is 1) and deleted: it has not been
    destroyed instead of recycled. *)
Theorem insertion_fails_once :
  let (id, w) := test_world Unlimited in
  match acquire_on id w with
  | Some (Ok h, w1) =>
      match dispose [bad_alloc] h w1 with
      | (r, w2) =>
          get h = Some 100%nat
          ∧ r = Ok ()
          ∧ (_poolContainer <$> pools w2 !! id)
            = Some [mkUniquePtr (Some 100%nat) (mkDeleter (Some id))]
          ∧ (pooled <$> pools w2 !! id) = Some 1
          ∧ (allocated <$> pools w2 !! id) = Some 1
          ∧ trace w2 = [EvDelete 100%nat; EvAdd id 100%nat; EvAdd id 100%nat]
      end
  | _ => False
  end.
Proof. vm_compute. repeat split. Qed.

(** The handler only catches [std::bad_alloc].  Disposing the first handle
    of a new pool while the insertion throws something else: the exception
    leaves [operator()], and the destructor of the handle ends the
    program. *)
Example insertion_failure_can_escape :
  let (id, w) := test_world Unlimited in
  ∃ h w1,
    acquire_on id w = Some (Ok h, w1)
    ∧ get h = Some 100%nat
    ∧ fst (operator_call [other_exception 5] (get_deleter h) 100%nat w1)
      = Throw (other_exception 5)
    ∧ fst (dispose [other_exception 5] h w1) = Terminate.
Proof. simpl. eexists _, _. repeat split. Qed.

(** ** Single calls of [acquire] *)

Lemma pool_eta self :
  mkPool (_limit self) (_allocated self) (_factory self) (_poolContainer self) = self.
Proof. by destruct self. Qed.

Lemma store_store id self1 self2 w :
  store id self2 (store id self1 w) = store id self2 w.
Proof. unfold store. simpl. by rewrite insert_insert_eq. Qed.

Lemma lookup_store id self w : pools (store id self w) !! id = Some self.
Proof. unfold store. simpl. apply lookup_insert_eq. Qed.

Lemma acquire_on_pop id w self top rest :
  pools w !! id = Some self →
  _poolContainer self = top :: rest →
  acquire_on id w =
    Some (Ok top, store id (mkPool (_limit self) (_allocated self) (_factory self) rest) w).
Proof.
  intros Hw Hs. unfold acquire_on, acquire. rewrite Hw, Hs. reflexivity.
Qed.

Lemma acquire_on_new id w self p :
  pools w !! id = Some self →
  _poolContainer self = [] →
  _limit self = Unlimited ∨ _allocated self < _limit self →
  outcome (_factory self) (invoked (_factory self)) = Returns p →
  acquire_on id w =
    Some (Ok (mkUniquePtr p (mkDeleter (Some id))),
          store id (mkPool (_limit self) (size_incr (_allocated self))
                      (mkFactory (outcome (_factory self)) (S (invoked (_factory self))))
                      []) w).
Proof.
  intros Hw Hs Hl Hf. unfold acquire_on, acquire. rewrite Hw, Hs.
  assert ((_limit self =? Unlimited) || (_allocated self <? _limit self) = true) as ->.
  { apply orb_true_iff. destruct Hl as [Hl|Hl].
    - left. by apply N.eqb_eq.
    - right. by apply N.ltb_lt. }
  unfold call. rewrite Hf. reflexivity.
Qed.

Lemma acquire_on_exhausted id w self :
  pools w !! id = Some self →
  _poolContainer self = [] →
  _limit self ≠ Unlimited →
  _limit self ≤ _allocated self →
  acquire_on id w = Some (Ok (mkUniquePtr None (mkDeleter None)), w).
Proof.
  intros Hw Hs Hl Ha. unfold acquire_on, acquire. rewrite Hw, Hs.
  assert ((_limit self =? Unlimited) || (_allocated self <? _limit self) = false) as ->.
  { apply orb_false_iff. split.
    - by apply N.eqb_neq.
    - apply N.ltb_ge. exact Ha. }
  by rewrite store_same.
Qed.

(** [++] on a [size_t] wraps at [SIZE_MAX]; below it, it does not. *)
Example size_incr_wraps : size_incr SIZE_MAX = 0.
Proof. reflexivity. Qed.

Lemma size_incr_small a : a < SIZE_MAX → size_incr a = a + 1.
Proof.
  unfold size_incr, SIZE_MAX. intros H. apply N.mod_small. lia.
Qed.

Lemma size_incr_mod n : size_incr (n mod 2 ^ 64) = (n + 1) mod 2 ^ 64.
Proof. unfold size_incr. by rewrite N.Div0.add_mod_idemp_l. Qed.

(** ** Loops of [acquire] and of disposals *)

Lemma iter_size_incr k : ∀ a,
  a + N.of_nat k ≤ SIZE_MAX → Nat.iter k size_incr a = a + N.of_nat k.
Proof.
  induction k as [|k IH]; intros a Ha.
  - simpl. lia.
  - rewrite Nat.iter_succ_r, IH; rewrite size_incr_small; lia.
Qed.

(** [n] calls that each construct a new object: the stack is empty, the
    limit leaves room for [n] more objects, and the factory returns. *)
Lemma acquire_loop_new n : ∀ id w self,
  pools w !! id = Some self →
  _poolContainer self = [] →
  _limit self ≤ SIZE_MAX →
  _limit self = Unlimited ∨ _allocated self + N.of_nat n ≤ _limit self →
  (∀ k, (k < n)%nat →
     has_returned (outcome (_factory self) (invoked (_factory self) + k)) = true) →
  ∃ obs,
    acquire_loop n id w =
      Some (obs, store id (mkPool (_limit self) (Nat.iter n size_incr (_allocated self))
                             (mkFactory (outcome (_factory self))
                                        (invoked (_factory self) + n)) []) w)
    ∧ length obs = n
    ∧ ∀ i, (i < n)%nat →
        obs !! i =
          Some (mkObs (Ok (mkUniquePtr
                             (returned_ptr (outcome (_factory self)
                                              (invoked (_factory self) + i)))
                             (mkDeleter (Some id))))
                      (Nat.iter (S i) size_incr (_allocated self)) 0).
Proof.
  induction n as [|n IH]; intros id w self Hw Hs Hmax Hl Hf.
  - exists []. simpl. rewrite Nat.add_0_r.
    replace (mkFactory _ _) with (_factory self) by (by destruct (_factory self)).
    rewrite <- Hs, pool_eta, store_same by done.
    repeat split. intros i Hi. lia.
  - assert (has_returned (outcome (_factory self) (invoked (_factory self))) = true) as H0.
    { specialize (Hf 0%nat). rewrite Nat.add_0_r in Hf. apply Hf. lia. }
    destruct (outcome (_factory self) (invoked (_factory self))) as [p|] eqn:Hp;
      [clear H0|done].
    assert (_limit self = Unlimited ∨ _allocated self < _limit self) as Hroom.
    { destruct Hl; [by left|right; lia]. }
    pose proof (acquire_on_new id w self p Hw Hs Hroom Hp) as Hacq.
    set (self1 := mkPool _ _ _ _) in Hacq.
    destruct (IH id (store id self1 w) self1) as (obs & Hloop & Hlen & Hobs).
    + apply lookup_store.
    + reflexivity.
    + exact Hmax.
    + simpl. destruct Hl as [Hl|Hl]; [by left|right].
      rewrite size_incr_small; lia.
    + intros k Hk. simpl. rewrite <- Nat.add_succ_r.
      apply Hf. lia.
    + eexists. simpl acquire_loop. rewrite Hacq, Hloop.
      rewrite store_store. simpl.
      rewrite <- Nat.add_succ_r.
      rewrite <- (Nat.iter_succ_r n size_incr).
      split; [reflexivity|]. split; [simpl; by rewrite Hlen|].
      intros [|i] Hi.
      * simpl. unfold observe. rewrite lookup_store.
        rewrite Nat.add_0_r, Hp. reflexivity.
      * simpl. rewrite Hobs by lia. subst self1. simpl.
        rewrite <- Nat.add_succ_r, Nat.iter_swap. reflexivity.
Qed.

(** [n] calls that each take a recycled object: the stack holds at least
    [n] entries.  The factory is not touched. *)
Lemma acquire_loop_pops n : ∀ id w self,
  pools w !! id = Some self →
  (n ≤ length (_poolContainer self))%nat →
  ∃ obs,
    acquire_loop n id w =
      Some (obs, store id (mkPool (_limit self) (_allocated self) (_factory self)
                             (drop n (_poolContainer self))) w)
    ∧ length obs = n
    ∧ ∀ i, (i < n)%nat →
        ∃ h, _poolContainer self !! i = Some h
          ∧ obs !! i =
              Some (mkObs (Ok h) (_allocated self)
                      (N.of_nat (length (_poolContainer self) - S i))).
Proof.
  induction n as [|n IH]; intros id w self Hw Hn.
  - exists []. simpl. rewrite drop_0, pool_eta, store_same by done.
    repeat split. intros i Hi. lia.
  - destruct (_poolContainer self) as [|top rest] eqn:Hs; [simpl in Hn; lia|].
    pose proof (acquire_on_pop id w self top rest Hw Hs) as Hacq.
    set (self1 := mkPool _ _ _ _) in Hacq.
    destruct (IH id (store id self1 w) self1) as (obs & Hloop & Hlen & Hobs).
    + apply lookup_store.
    + simpl in *. lia.
    + eexists. simpl acquire_loop. rewrite Hacq, Hloop.
      rewrite store_store. simpl.
      split; [reflexivity|]. split; [simpl; by rewrite Hlen|].
      intros [|i] Hi.
      * exists top. split; [done|]. simpl. unfold observe.
        rewrite lookup_store. unfold pooled. simpl.
        by rewrite Nat.sub_0_r.
      * destruct (Hobs i) as (h & Hh & Ho); [lia|].
        exists h. simpl in *. done.
Qed.

(** Releasing handles of pool [id] while it is alive pushes them in turn. *)
Lemma release_all_recycles hs : ∀ id w self,
  Forall (checked_out_from id) hs →
  pools w !! id = Some self →
  release_all hs w =
    (Ok (),
     mkWorld (<[id := mkPool (_limit self) (_allocated self) (_factory self)
                        (rev hs ++ _poolContainer self)]> (pools w))
             (next_pool w)
             (rev (EvAdd id <$> omap get hs) ++ trace w)).
Proof.
  induction hs as [|h hs IH]; intros id w self Hhs Hw.
  - simpl. rewrite pool_eta, insert_id by done. by destruct w.
  - apply Forall_cons in Hhs as [[p ->] Hhs].
    simpl release_all. unfold dispose, unique_ptr_dtor. simpl get.
    simpl get_deleter. cbv beta match.
    rewrite (operator_call_recycles _ p w id self) by done.
    set (self1 := mkPool _ _ _ _).
    rewrite (IH id _ self1 Hhs (lookup_store _ _ _)).
    simpl. rewrite insert_insert_eq. rewrite <- !app_assoc. reflexivity.
Qed.

(** The loop of the destructor deletes the objects of the entries, top
    first, calls [add] for none of them and leaves the store of pools as
    it is, in every world: each policy is detached before it is run. *)
Lemma destructor_loop_deletes faults stack : ∀ w,
  destructor_loop faults stack w =
    (Ok (),
     mkWorld (pools w) (next_pool w) (rev (EvDelete <$> omap get stack) ++ trace w)).
Proof.
  induction stack as [|top rest IH]; intros w.
  - simpl. by destruct w.
  - simpl destructor_loop. unfold unique_ptr_dtor. simpl get. simpl get_deleter.
    destruct (get top) as [p|] eqn:Hp.
    + rewrite operator_call_no_owner by reflexivity.
      rewrite IH. simpl. rewrite Hp. simpl. rewrite <- app_assoc. reflexivity.
    + rewrite IH. simpl. rewrite Hp. reflexivity.
Qed.

(** The handles collected from a loop whose calls all returned one. *)
Lemma handles_of_all (P : UniquePtrToObject → Prop) obs :
  (∀ i o, obs !! i = Some o → ∃ h, result o = Ok h ∧ P h) →
  Forall P (handles_of obs) ∧ length (handles_of obs) = length obs.
Proof.
  induction obs as [|o obs IH]; intros H.
  - split; [constructor|reflexivity].
  - destruct (H 0%nat o eq_refl) as (h & Hr & Hh).
    destruct IH as [IH1 IH2].
    { intros i o' Hi. exact (H (S i) o' Hi). }
    unfold handles_of in *. simpl. rewrite Hr.
    split; [by constructor|simpl; by f_equal].
Qed.

Lemma omap_get_rev (hs : list UniquePtrToObject) :
  omap get (rev hs) = rev (omap get hs).
Proof.
  induction hs as [|h hs IH]; [reflexivity|].
  simpl. rewrite omap_app, IH. simpl.
  destruct (get h); simpl; [reflexivity|by rewrite app_nil_r].
Qed.

Lemma fmap_rev {A B} (g : A → B) (l : list A) : g <$> rev l = rev (g <$> l).
Proof.
  induction l as [|x l IH]; [reflexivity|].
  simpl. by rewrite fmap_app, IH.
Qed.

Lemma checked_out_from_full id h : checked_out_from id h → to_bool h = true.
Proof. by intros [p ->]. Qed.

(** C2.  A pool created with limit [n], [n ≠ 0], whose factory returns an
    object on each of its first [n] invocations.  The first [n] calls of
    [acquire] return a non-empty handle, after the [i]-th of them (counted
    from 1) [allocated()] is [i] and [pooled()] is 0; one more call returns
    (it does not throw) the empty handle and leaves the world as it is,
    with [allocated()] equal to [n] and [pooled()] equal to 0. *)
Theorem exhaustion_boundary :
  ∀ (f : nat → FactoryResult) (n : nat) (w : World),
    (0 < n)%nat →
    N.of_nat n ≤ SIZE_MAX →
    (∀ k, (k < n)%nat → ∃ p, f k = Returns (Some p)) →
    let (id, w0) := create (mkFactory f 0) (N.of_nat n) w in
    ∃ obs w1 self1,
      acquire_loop n id w0 = Some (obs, w1)
      ∧ length obs = n
      ∧ (∀ i o, obs !! i = Some o →
           (∃ h, result o = Ok h ∧ to_bool h = true)
           ∧ allocated_after o = N.of_nat (S i)
           ∧ pooled_after o = 0)
      ∧ acquire_on id w1 = Some (Ok (mkUniquePtr None (mkDeleter None)), w1)
      ∧ pools w1 !! id = Some self1
      ∧ limit self1 = N.of_nat n
      ∧ allocated self1 = N.of_nat n
      ∧ pooled self1 = 0.
Proof.
  intros f n w Hn Hmax Hf. unfold create.
  set (id := next_pool w). set (w0 := mkWorld _ _ _).
  set (self0 := RaiiObjectPool_ctor (mkFactory f 0) (N.of_nat n)).
  assert (pools w0 !! id = Some self0) as Hw0 by apply lookup_insert_eq.
  destruct (acquire_loop_new n id w0 self0 Hw0 eq_refl Hmax) as (obs & Hloop & Hlen & Hobs).
  { right. simpl. lia. }
  { intros k Hk. simpl. destruct (Hf k Hk) as [p ->]. reflexivity. }
  simpl in Hloop, Hobs.
  rewrite iter_size_incr in Hloop by lia.
  eexists obs, _, _. split; [exact Hloop|]. split; [exact Hlen|].
  split; [|split; [|split; [apply lookup_store|]]].
  - intros i o Hio.
    assert (i < n)%nat as Hi by (rewrite <- Hlen; by eapply lookup_lt_Some).
    rewrite (Hobs i Hi) in Hio. injection Hio as <-. simpl.
    destruct (Hf i Hi) as [p ->]. simpl.
    split; [by eexists|]. split; [|reflexivity].
    rewrite <- Nat.iter_succ, iter_size_incr; lia.
  - eapply acquire_on_exhausted.
    + apply lookup_store.
    + reflexivity.
    + simpl. unfold Unlimited. lia.
    + simpl. lia.
  - unfold limit, allocated, pooled. simpl. split; [done|]. split; [lia|done].
Qed.

Lemma exhaustion_boundary_witness :
  (0 < 3)%nat
  ∧ N.of_nat 3 ≤ SIZE_MAX
  ∧ (∀ k, (k < 3)%nat → ∃ p, fresh_objects k = Returns (Some p))
  ∧ let (id, w0) := create (mkFactory fresh_objects 0) (N.of_nat 3) (mkWorld ∅ 0%nat []) in
    ∃ obs w1 self1,
      acquire_loop 3 id w0 = Some (obs, w1)
      ∧ length obs = 3%nat
      ∧ (∀ i o, obs !! i = Some o →
           (∃ h, result o = Ok h ∧ to_bool h = true)
           ∧ allocated_after o = N.of_nat (S i)
           ∧ pooled_after o = 0)
      ∧ acquire_on id w1 = Some (Ok (mkUniquePtr None (mkDeleter None)), w1)
      ∧ pools w1 !! id = Some self1
      ∧ limit self1 = N.of_nat 3
      ∧ allocated self1 = N.of_nat 3
      ∧ pooled self1 = 0.
Proof.
  assert (0 < 3)%nat as H1 by lia.
  assert (N.of_nat 3 ≤ SIZE_MAX) as H2 by (unfold SIZE_MAX; lia).
  assert (∀ k, (k < 3)%nat → ∃ p, fresh_objects k = Returns (Some p)) as H3
    by (intros k _; eexists; reflexivity).
  split; [exact H1|]. split; [exact H2|]. split; [exact H3|].
  exact (exhaustion_boundary fresh_objects 3 (mkWorld ∅ 0%nat []) H1 H2 H3).
Defined.

(** C5.  Two full handles of a live pool are released, [hA] first and
    [hB] second, and [acquire] is then called twice.  The first call
    returns the object of [hB], the second the object of [hA]; the factory
    is not invoked, and the pool is back in the state it had before the
    releases. *)
Theorem lifo_reuse :
  ∀ (w : World) (id : PoolId) (self : RaiiObjectPool)
    (hA hB : UniquePtrToObject) (a b : addr),
    pools w !! id = Some self →
    get hA = Some a → _ptrToOwnerPool (get_deleter hA) = Some id →
    get hB = Some b → _ptrToOwnerPool (get_deleter hB) = Some id →
    ∃ w1 w2 w3,
      release_all [hA; hB] w = (Ok (), w1)
      ∧ acquire_on id w1 = Some (Ok (mkUniquePtr (Some b) (mkDeleter (Some id))), w2)
      ∧ acquire_on id w2 = Some (Ok (mkUniquePtr (Some a) (mkDeleter (Some id))), w3)
      ∧ pools w3 = pools w
      ∧ trace w3 = [EvAdd id b; EvAdd id a] ++ trace w.
Proof.
  intros w id self [pa [oa]] [pb [ob]] a b Hw Ha Hoa Hb Hob.
  simpl in Ha, Hoa, Hb, Hob. subst.
  assert (Forall (checked_out_from id)
            [mkUniquePtr (Some a) (mkDeleter (Some id));
             mkUniquePtr (Some b) (mkDeleter (Some id))]) as Hhs.
  { repeat constructor; by eexists. }
  eexists _, _, _.
  rewrite (release_all_recycles _ id w self Hhs Hw). simpl.
  split; [reflexivity|].
  erewrite acquire_on_pop; [|apply lookup_insert_eq|reflexivity].
  split; [reflexivity|].
  erewrite acquire_on_pop; [|apply lookup_store|reflexivity].
  split; [reflexivity|]. simpl. split; [|reflexivity].
  rewrite !insert_insert_eq, pool_eta. by apply insert_id.
Qed.

Lemma lifo_reuse_witness :
  let w := snd (test_world Unlimited) in
  let self := RaiiObjectPool_ctor (mkFactory fresh_objects 0) Unlimited in
  let hA := mkUniquePtr (Some 1%nat) (mkDeleter (Some 0%nat)) in
  let hB := mkUniquePtr (Some 2%nat) (mkDeleter (Some 0%nat)) in
  pools w !! 0%nat = Some self
  ∧ get hA = Some 1%nat ∧ _ptrToOwnerPool (get_deleter hA) = Some 0%nat
  ∧ get hB = Some 2%nat ∧ _ptrToOwnerPool (get_deleter hB) = Some 0%nat
  ∧ ∃ w1 w2 w3,
      release_all [hA; hB] w = (Ok (), w1)
      ∧ acquire_on 0%nat w1
        = Some (Ok (mkUniquePtr (Some 2%nat) (mkDeleter (Some 0%nat))), w2)
      ∧ acquire_on 0%nat w2
        = Some (Ok (mkUniquePtr (Some 1%nat) (mkDeleter (Some 0%nat))), w3)
      ∧ pools w3 = pools w
      ∧ trace w3 = [EvAdd 0%nat 2%nat; EvAdd 0%nat 1%nat] ++ trace w.
Proof.
  intros w self hA hB.
  assert (pools w !! 0%nat = Some self) as Hw by reflexivity.
  split; [exact Hw|]. repeat (split; [reflexivity|]).
  exact (lifo_reuse w 0%nat self hA hB 1%nat 2%nat Hw eq_refl eq_refl eq_refl eq_refl).
Defined.

(** The first phase shared by the scenarios below: a new pool hands out
    [n] new objects, which are then all released. *)
Lemma acquire_then_release f lim n w :
  lim ≤ SIZE_MAX →
  lim = Unlimited ∨ N.of_nat n ≤ lim →
  (∀ k, (k < n)%nat → ∃ p, f k = Returns (Some p)) →
  let id := next_pool w in
  let w0 := snd (create (mkFactory f 0) lim w) in
  ∃ obs hs,
    acquire_loop n id w0 =
      Some (obs, store id (mkPool lim (Nat.iter n size_incr 0) (mkFactory f n) []) w0)
    ∧ handles_of obs = hs
    ∧ Forall (checked_out_from id) hs
    ∧ length hs = n
    ∧ release_all hs (store id (mkPool lim (Nat.iter n size_incr 0) (mkFactory f n) []) w0) =
        (Ok (),
         mkWorld (<[id := mkPool lim (Nat.iter n size_incr 0) (mkFactory f n) (rev hs)]>
                    (pools w))
                 (S id)
                 (rev (EvAdd id <$> omap get hs) ++ trace w)).
Proof.
  intros Hmax Hl Hf id w0.
  set (self0 := RaiiObjectPool_ctor (mkFactory f 0) lim).
  assert (pools w0 !! id = Some self0) as Hw0 by apply lookup_insert_eq.
  destruct (acquire_loop_new n id w0 self0 Hw0 eq_refl Hmax) as (obs & Hloop & Hlen & Hobs).
  { destruct Hl; [by left|right; simpl; lia]. }
  { intros k Hk. simpl. destruct (Hf k Hk) as [p ->]. reflexivity. }
  simpl in Hloop, Hobs.
  destruct (handles_of_all (checked_out_from id) obs) as [Hall Hlen'].
  { intros i o Hio.
    assert (i < n)%nat as Hi by (rewrite <- Hlen; by eapply lookup_lt_Some).
    rewrite (Hobs i Hi) in Hio. injection Hio as <-. simpl.
    destruct (Hf i Hi) as [p ->]. eexists. split; [reflexivity|by eexists]. }
  exists obs, (handles_of obs).
  split; [exact Hloop|]. split; [reflexivity|]. split; [exact Hall|].
  split; [congruence|].
  erewrite release_all_recycles; [|exact Hall|apply lookup_store].
  simpl. rewrite !insert_insert_eq, app_nil_r. reflexivity.
Qed.

(** C6.  A pool with limit [n] hands out [n] new objects, which are all
    released: [pooled()] and [allocated()] are [n].  The next [n] calls of
    [acquire] return non-empty handles; after the [i]-th (counted from 1)
    [allocated()] is still [n] and [pooled()] is [n - i]; the factory is
    not invoked during these calls. *)
Theorem recycle_then_reacquire :
  ∀ (f : nat → FactoryResult) (n : nat) (w : World),
    N.of_nat n ≤ SIZE_MAX →
    (∀ k, (k < n)%nat → ∃ p, f k = Returns (Some p)) →
    let (id, w0) := create (mkFactory f 0) (N.of_nat n) w in
    ∃ obs w1 w2 self2 obs' w3 self3,
      acquire_loop n id w0 = Some (obs, w1)
      ∧ release_all (handles_of obs) w1 = (Ok (), w2)
      ∧ pools w2 !! id = Some self2
      ∧ pooled self2 = N.of_nat n
      ∧ allocated self2 = N.of_nat n
      ∧ acquire_loop n id w2 = Some (obs', w3)
      ∧ length obs' = n
      ∧ (∀ i o, obs' !! i = Some o →
           (∃ h, result o = Ok h ∧ to_bool h = true)
           ∧ allocated_after o = N.of_nat n
           ∧ pooled_after o = N.of_nat (n - S i))
      ∧ pools w3 !! id = Some self3
      ∧ _factory self3 = _factory self2
      ∧ allocated self3 = N.of_nat n
      ∧ pooled self3 = 0.
Proof.
  intros f n w Hmax Hf.
  destruct (acquire_then_release f (N.of_nat n) n w Hmax) as
    (obs & hs & Hloop & Hhs & Hall & Hlen & Hrel); [right; lia|exact Hf|].
  rewrite iter_size_incr in Hloop, Hrel by lia. rewrite N.add_0_l in Hloop, Hrel.
  unfold create in *. simpl in Hloop, Hrel.
  set (id := next_pool w) in *.
  set (self2 := mkPool (N.of_nat n) (N.of_nat n) (mkFactory f n) (rev hs)) in Hrel.
  match type of Hrel with _ = (_, ?x) => set (w2 := x) in Hrel end.
  assert (pools w2 !! id = Some self2) as Hw2 by apply lookup_insert_eq.
  assert (length (_poolContainer self2) = n) as Hlen2
    by (simpl; by rewrite length_rev).
  destruct (acquire_loop_pops n id w2 self2 Hw2) as (obs' & Hloop' & Hlen' & Hobs');
    [lia|].
  eexists obs, _, w2, self2, obs', _, _.
  split; [exact Hloop|]. rewrite Hhs. split; [exact Hrel|].
  split; [exact Hw2|]. split; [unfold pooled; by rewrite Hlen2|].
  split; [reflexivity|]. split; [exact Hloop'|]. split; [exact Hlen'|].
  split; [|split; [apply lookup_store|]].
  - intros i o Hio.
    assert (i < n)%nat as Hi by (rewrite <- Hlen'; by eapply lookup_lt_Some).
    destruct (Hobs' i Hi) as (h & Hh & Ho). rewrite Hlen2 in Ho.
    rewrite Ho in Hio.
    injection Hio as <-. simpl.
    split; [|done]. exists h. split; [reflexivity|].
    apply (checked_out_from_full id).
    assert (Forall (checked_out_from id) (rev hs)) as Hrev
      by (by apply Forall_rev).
    rewrite Forall_lookup in Hrev. by eapply Hrev.
  - simpl. split; [reflexivity|]. split; [reflexivity|].
    unfold pooled. simpl. rewrite drop_ge by (rewrite length_rev; lia). done.
Qed.

Lemma recycle_then_reacquire_witness :
  N.of_nat 3 ≤ SIZE_MAX
  ∧ (∀ k, (k < 3)%nat → ∃ p, fresh_objects k = Returns (Some p))
  ∧ let (id, w0) := create (mkFactory fresh_objects 0) (N.of_nat 3) (mkWorld ∅ 0%nat []) in
    ∃ obs w1 w2 self2 obs' w3 self3,
      acquire_loop 3 id w0 = Some (obs, w1)
      ∧ release_all (handles_of obs) w1 = (Ok (), w2)
      ∧ pools w2 !! id = Some self2
      ∧ pooled self2 = N.of_nat 3
      ∧ allocated self2 = N.of_nat 3
      ∧ acquire_loop 3 id w2 = Some (obs', w3)
      ∧ length obs' = 3%nat
      ∧ (∀ i o, obs' !! i = Some o →
           (∃ h, result o = Ok h ∧ to_bool h = true)
           ∧ allocated_after o = N.of_nat 3
           ∧ pooled_after o = N.of_nat (3 - S i))
      ∧ pools w3 !! id = Some self3
      ∧ _factory self3 = _factory self2
      ∧ allocated self3 = N.of_nat 3
      ∧ pooled self3 = 0.
Proof.
  assert (N.of_nat 3 ≤ SIZE_MAX) as H2 by (unfold SIZE_MAX; lia).
  assert (∀ k, (k < 3)%nat → ∃ p, fresh_objects k = Returns (Some p)) as H3
    by (intros k _; eexists; reflexivity).
  split; [exact H2|]. split; [exact H3|].
  exact (recycle_then_reacquire fresh_objects 3 (mkWorld ∅ 0%nat []) H2 H3).
Defined.

(** C9.  The destructor of a pool, run in any world (also one in which the
    owner of the entries would still resolve), returns, deletes the object
    of each entry of the recycle stack, top first, calls [add] for none of
    them and leaves the other pools alone: the policy of each entry is
    detached before the entry is destroyed.  In particular, when [K] new
    objects have been acquired from a new pool and released, dropping the
    pool removes it and its destructor deletes exactly these [K] objects:
    the events it adds are [K] deletions and no call of [add]. *)
Theorem pool_teardown :
  ∀ (faults : list exception) (f : nat → FactoryResult) (lim : N) (K : nat) (w : World),
    lim ≤ SIZE_MAX →
    lim = Unlimited ∨ N.of_nat K ≤ lim →
    (∀ k, (k < K)%nat → ∃ p, f k = Returns (Some p)) →
    (∀ self w',
       RaiiObjectPool_dtor faults self w' =
         (Ok (),
          mkWorld (pools w') (next_pool w')
                  (rev (EvDelete <$> omap get (_poolContainer self)) ++ trace w')))
    ∧ let (id, w0) := create (mkFactory f 0) lim w in
      ∃ obs w1 w2 w3 objs,
        acquire_loop K id w0 = Some (obs, w1)
        ∧ release_all (handles_of obs) w1 = (Ok (), w2)
        ∧ (pooled <$> pools w2 !! id) = Some (N.of_nat K)
        ∧ omap get (handles_of obs) = objs
        ∧ length objs = K
        ∧ reset faults id w2 = Some (Ok (), w3)
        ∧ trace w3 = (EvDelete <$> objs) ++ trace w2
        ∧ pools w3 = delete id (pools w2).
Proof.
  intros faults f lim K w Hmax Hl Hf. split.
  { intros self w'. apply destructor_loop_deletes. }
  destruct (acquire_then_release f lim K w Hmax Hl Hf) as
    (obs & hs & Hloop & Hhs & Hall & Hlen & Hrel).
  unfold create in *. simpl in Hloop, Hrel.
  set (id := next_pool w) in *.
  set (self2 := mkPool _ _ _ (rev hs)) in Hrel.
  match type of Hrel with _ = (_, ?x) => set (w2 := x) in Hrel end.
  assert (pools w2 !! id = Some self2) as Hw2 by apply lookup_insert_eq.
  assert (length (omap get hs) = K) as Hobjs.
  { clear -Hall Hlen. subst K. induction Hall as [|h hs [p ->] _ IH]; [done|].
    simpl. by f_equal. }
  eexists obs, _, w2, _, (omap get hs).
  split; [exact Hloop|]. rewrite Hhs. split; [exact Hrel|].
  split; [rewrite Hw2; unfold pooled; simpl; by rewrite length_rev, Hlen|].
  split; [reflexivity|]. split; [exact Hobjs|].
  unfold reset. rewrite Hw2. unfold RaiiObjectPool_dtor.
  rewrite destructor_loop_deletes. simpl.
  rewrite omap_get_rev, fmap_rev, rev_involutive.
  split; [reflexivity|]. split; reflexivity.
Qed.

Lemma pool_teardown_witness :
  (4 ≤ SIZE_MAX)
  ∧ (4 = Unlimited ∨ N.of_nat 2 ≤ 4)
  ∧ (∀ k, (k < 2)%nat → ∃ p, fresh_objects k = Returns (Some p))
  ∧ (∀ self w',
       RaiiObjectPool_dtor [bad_alloc] self w' =
         (Ok (),
          mkWorld (pools w') (next_pool w')
                  (rev (EvDelete <$> omap get (_poolContainer self)) ++ trace w')))
  ∧ let (id, w0) := create (mkFactory fresh_objects 0) 4 (mkWorld ∅ 0%nat []) in
      ∃ obs w1 w2 w3 objs,
        acquire_loop 2 id w0 = Some (obs, w1)
        ∧ release_all (handles_of obs) w1 = (Ok (), w2)
        ∧ (pooled <$> pools w2 !! id) = Some (N.of_nat 2)
        ∧ omap get (handles_of obs) = objs
        ∧ length objs = 2%nat
        ∧ reset [bad_alloc] id w2 = Some (Ok (), w3)
        ∧ trace w3 = (EvDelete <$> objs) ++ trace w2
        ∧ pools w3 = delete id (pools w2).
Proof.
  assert (4 ≤ SIZE_MAX) as H1 by (unfold SIZE_MAX; lia).
  assert (4 = Unlimited ∨ N.of_nat 2 ≤ 4) as H2 by (right; lia).
  assert (∀ k, (k < 2)%nat → ∃ p, fresh_objects k = Returns (Some p)) as H3
    by (intros k _; eexists; reflexivity).
  split; [exact H1|]. split; [exact H2|]. split; [exact H3|].
  exact (pool_teardown [bad_alloc] fresh_objects 4 2 (mkWorld ∅ 0%nat []) H1 H2 H3).
Defined.

(** ** Reachable states *)

Section Counting.
Implicit Types (h : UniquePtrToObject) (hs : list UniquePtrToObject).

Lemma checked_out_app id hs1 hs2 :
  checked_out id (hs1 ++ hs2) = (checked_out id hs1 + checked_out id hs2)%nat.
Proof. induction hs1 as [|h hs1 IH]; simpl; [done|]. rewrite IH. lia. Qed.

Lemma checked_out_delete id hs : ∀ k h,
  hs !! k = Some h →
  checked_out id hs =
    ((if owned_by id h then 1 else 0) + checked_out id (delete k hs))%nat.
Proof.
  induction hs as [|h0 hs IH]; intros [|k] h Hk; simpl in *; try done.
  - by injection Hk as ->.
  - rewrite (IH k h Hk). lia.
Qed.

Lemma owned_by_checked_out_from id h :
  checked_out_from id h → owned_by id h = true.
Proof.
  intros [p ->]. unfold owned_by. simpl. by rewrite bool_decide_eq_true.
Qed.

Lemma owned_by_other id id' h :
  _ptrToOwnerPool (get_deleter h) = Some id → id' ≠ id → owned_by id' h = false.
Proof.
  intros Hh Hne. unfold owned_by. rewrite Hh.
  rewrite (bool_decide_eq_false_2 (Some id = Some id')) by congruence.
  apply andb_false_r.
Qed.

Lemma owned_by_inv id h :
  owned_by id h = true → checked_out_from id h.
Proof.
  destruct h as [[p|] [o]]; unfold owned_by, to_bool; simpl; [|done].
  intros H%bool_decide_eq_true. subst. by exists p.
Qed.

Lemma checked_out_unknown next hs :
  Forall (known_owner next) hs → checked_out next hs = 0%nat.
Proof.
  induction 1 as [|h hs Hh _ IH]; simpl; [done|]. rewrite IH.
  destruct (owned_by next h) eqn:Ho; [|done].
  apply owned_by_inv in Ho as [p ->].
  specialize (Hh next eq_refl). lia.
Qed.

Lemma known_owner_mono next next' h :
  (next ≤ next')%nat → known_owner next h → known_owner next' h.
Proof. intros Hn Hh id Hid. specialize (Hh id Hid). lia. Qed.
End Counting.

(** What one call of [acquire] does to the facts kept about its pool. *)
Lemma acquire_pool_ok next hs id self r self' :
  pool_ok next hs id self →
  acquire id self = (r, self') →
  pool_ok next (hs ++ kept r) id self'
  ∧ r ≠ Terminate
  ∧ Forall (λ h, _ptrToOwnerPool (get_deleter h) = None
                ∨ _ptrToOwnerPool (get_deleter h) = Some id) (kept r)
  ∧ (_allocated self' = _allocated self
     ∨ _allocated self' = size_incr (_allocated self)
       ∧ (_limit self = Unlimited ∨ _allocated self < _limit self)).
Proof.
  intros (Hid & Hmax & Hst & Hal & Hlim & Hcnt) Hacq.
  unfold acquire in Hacq.
  destruct (_poolContainer self) as [|top rest] eqn:Hs.
  - destruct ((_limit self =? Unlimited) || (_allocated self <? _limit self)) eqn:Hroom.
    + unfold call in Hacq.
      assert (pool_ok next (hs ++ kept r) id self'
              ∧ r ≠ Terminate
              ∧ Forall (λ h, _ptrToOwnerPool (get_deleter h) = None
                             ∨ _ptrToOwnerPool (get_deleter h) = Some id)
                       (kept r)
              ∧ _allocated self' = size_incr (_allocated self)) as (H1 & H2 & H3 & H4).
      { assert (_limit self ≠ Unlimited → N.of_nat (S (invoked (_factory self))) ≤ _limit self)
          as Hlim'.
        { intros Hne. specialize (Hlim Hne).
          apply orb_true_iff in Hroom as [Hr|Hr].
          - by apply N.eqb_eq in Hr.
          - apply N.ltb_lt in Hr. rewrite Hal, N.mod_small in Hr; unfold SIZE_MAX in *; lia. }
        assert (size_incr (_allocated self)
                = N.of_nat (S (invoked (_factory self))) mod 2 ^ 64) as Hal'.
        { rewrite Hal, size_incr_mod. f_equal. lia. }
        assert (checked_out id (hs ++ kept r) ≤ S (checked_out id hs))%nat as Hc.
        { rewrite checked_out_app. destruct r as [h| |]; simpl; [|lia|lia].
          destruct (owned_by id h); lia. }
        simpl in Hcnt.
        destruct (outcome (_factory self) (invoked (_factory self))) as [p|e];
          injection Hacq as <- <-; simpl in *;
          (split; [repeat split; simpl; try done; lia|]);
          (split; [done|]); (split; [|done]).
        - constructor; [by right|constructor].
        - constructor. }
      split; [done|]. split; [done|]. split; [done|]. right. split; [done|].
      apply orb_true_iff in Hroom as [Hr|Hr].
      * left. by apply N.eqb_eq in Hr.
      * right. by apply N.ltb_lt in Hr.
    + injection Hacq as <- <-. simpl.
      split; [|split; [done|split; [|by left]]].
      * unfold pool_ok. rewrite Hs. repeat split; try done.
        rewrite checked_out_app. simpl. simpl in Hcnt. lia.
      * constructor; [by left|constructor].
  - injection Hacq as <- <-. simpl.
    apply Forall_cons in Hst as [Htop Hrest].
    split; [|split; [done|split; [|by left]]].
    + repeat split; try done. rewrite checked_out_app. simpl.
      rewrite (owned_by_checked_out_from _ _ Htop). simpl in Hcnt. lia.
    + destruct Htop as [p ->]. constructor; [by right|constructor].
Qed.

Lemma owned_by_no_owner id h :
  _ptrToOwnerPool (get_deleter h) = None → owned_by id h = false.
Proof.
  intros Hh. unfold owned_by. rewrite Hh.
  rewrite (bool_decide_eq_false_2 (None = Some id)) by congruence.
  apply andb_false_r.
Qed.


(** What a call of the policy can do to the store of pools, whatever the
    insertions do: nothing, or one push of the object on the pool the
    policy refers to. *)
Lemma operator_call_effect faults : ∀ d p w r w',
  operator_call faults d p w = (r, w') →
  next_pool w' = next_pool w
  ∧ (pools w' = pools w
     ∨ ∃ id self,
         _ptrToOwnerPool d = Some id
         ∧ pools w !! id = Some self
         ∧ pools w' =
             <[id := mkPool (_limit self) (_allocated self) (_factory self)
                       (mkUniquePtr (Some p) (mkDeleter (Some id)) :: _poolContainer self)]>
               (pools w)).
Proof.
  induction faults as [|e faults IH]; intros d p w r w' Hcall;
    simpl in Hcall; unfold operator_call_body in Hcall;
    destruct (lock (_ptrToOwnerPool d) w) as [[id self]|] eqn:Hlock.
  - apply lock_Some in Hlock as [Hd Hw]. simpl in Hcall.
    injection Hcall as <- <-. simpl. split; [done|]. right. by exists id, self.
  - injection Hcall as <- <-. simpl. by split; [|left].
  - apply lock_Some in Hlock as [Hd Hw]. simpl in Hcall.
    unfold unique_ptr_dtor in Hcall. simpl in Hcall.
    destruct (operator_call faults _ p _) as [r1 w1] eqn:Hinner.
    apply IH in Hinner as [Hnext Hpools]. simpl in Hnext, Hpools.
    rewrite (insert_id (pools w) id self Hw) in Hpools.
    assert (next_pool w' = next_pool w1 ∧ pools w' = pools w1) as [-> ->].
    { destruct r1; [destruct (is_bad_alloc e)|..];
        injection Hcall as <- <-; done. }
    split; [done|].
    destruct Hpools as [Hp|(id' & self' & [= <-] & Hw' & Hp)]; [by left|].
    right. exists id, self'. by rewrite Hw' in Hw.
  - injection Hcall as <- <-. simpl. by split; [|left].
Qed.

Lemma dispose_effect faults h w r w' :
  dispose faults h w = (r, w') →
  next_pool w' = next_pool w
  ∧ (pools w' = pools w
     ∨ ∃ id self,
         checked_out_from id h
         ∧ pools w !! id = Some self
         ∧ pools w' =
             <[id := mkPool (_limit self) (_allocated self) (_factory self)
                       (h :: _poolContainer self)]>
               (pools w)).
Proof.
  unfold dispose, unique_ptr_dtor. destruct h as [[p|] [o]]; simpl.
  - destruct (operator_call faults _ p w) as [r1 w1] eqn:Hcall.
    apply operator_call_effect in Hcall as [Hnext Hpools].
    intros Hr.
    assert (w' = w1) as -> by (destruct r1; by injection Hr as <- <-).
    split; [done|].
    destruct Hpools as [Hp|(id & self & Hd & Hw & Hp)]; [by left|].
    simpl in Hd. subst o. right. exists id, self.
    split; [by exists p|done].
  - intros [= <- <-]. by split; [|left].
Qed.

Section Preservation.
Implicit Types (s : Program) (w : World).

Lemma consistent_initial : consistent initial.
Proof.
  split; simpl; [|constructor].
  intros id self H. by rewrite lookup_empty in H.
Qed.

Lemma consistent_create s f lim :
  lim ≤ SIZE_MAX →
  consistent s →
  consistent (mkProgram (snd (create (mkFactory f 0) lim (world s))) (handles s)).
Proof.
  intros Hmax [Hpools Hhs]. split; simpl.
  - intros id self Hid.
    destruct (decide (id = next_pool (world s))) as [->|Hne].
    + rewrite lookup_insert_eq in Hid. injection Hid as <-.
      unfold pool_ok; split_and!; simpl; try done; try lia.
      by rewrite (checked_out_unknown _ _ Hhs).
    + rewrite lookup_insert_ne in Hid by done.
      destruct (Hpools id self Hid) as (? & ? & ? & ? & ? & ?).
      unfold pool_ok; split_and!; try done. lia.
  - eapply Forall_impl; [exact Hhs|].
    intros h. apply known_owner_mono. lia.
Qed.

Lemma consistent_acquire s id r w' :
  consistent s →
  acquire_on id (world s) = Some (r, w') →
  consistent (mkProgram w' (handles s ++ kept r)) ∧ r ≠ Terminate.
Proof.
  intros [Hpools Hhs] Hacq. unfold acquire_on in Hacq.
  destruct (pools (world s) !! id) as [self|] eqn:Hw; [|done].
  destruct (acquire id self) as [r0 self'] eqn:Hcall.
  injection Hacq as <- <-.
  destruct (acquire_pool_ok _ _ _ _ _ _ (Hpools id self Hw) Hcall)
    as (Hok & Hr & Hkept & _).
  split; [|done]. split; simpl.
  - intros id' self'' Hid'.
    destruct (decide (id' = id)) as [->|Hne].
    + rewrite lookup_insert_eq in Hid'. by injection Hid' as <-.
    + rewrite lookup_insert_ne in Hid' by done.
      destruct (Hpools id' self'' Hid') as (? & ? & ? & ? & ? & ?).
      unfold pool_ok; split_and!; try done.
      rewrite checked_out_app.
      assert (checked_out id' (kept r0) = 0%nat) as ->; [|lia].
      destruct r0 as [h| |]; simpl; try done.
      apply Forall_cons in Hkept as [[Hh|Hh] _].
      * by rewrite owned_by_no_owner.
      * by rewrite (owned_by_other id id').
  - apply Forall_app. split; [done|].
    eapply Forall_impl; [exact Hkept|].
    intros h [Hh|Hh] id' Hid'; [congruence|].
    rewrite Hh in Hid'. injection Hid' as <-.
    by destruct Hok.
Qed.

Lemma consistent_dispose s k h faults r w' :
  consistent s →
  handles s !! k = Some h →
  dispose faults h (world s) = (r, w') →
  consistent (mkProgram w' (delete k (handles s))).
Proof.
  intros [Hpools Hhs] Hk Hdis.
  apply dispose_effect in Hdis as [Hnext Heff].
  assert (∀ id, (checked_out id (delete k (handles s)) ≤ checked_out id (handles s))%nat)
    as Hle.
  { intros id. rewrite (checked_out_delete id _ k h Hk). lia. }
  split; simpl; rewrite Hnext.
  - intros id self Hid.
    destruct Heff as [Hp|(id0 & self0 & Hh & Hw0 & Hp)]; rewrite Hp in Hid.
    + destruct (Hpools id self Hid) as (? & ? & ? & ? & ? & ?).
      unfold pool_ok; split_and!; try done. specialize (Hle id). lia.
    + destruct (decide (id = id0)) as [->|Hne].
      * rewrite lookup_insert_eq in Hid. injection Hid as <-.
        destruct (Hpools id0 self0 Hw0) as (? & ? & ? & ? & ? & Hcnt).
        unfold pool_ok; split_and!; simpl; try done.
        { by constructor. }
        rewrite (checked_out_delete id0 _ k h Hk) in Hcnt.
        rewrite (owned_by_checked_out_from _ _ Hh) in Hcnt. lia.
      * rewrite lookup_insert_ne in Hid by done.
        destruct (Hpools id self Hid) as (? & ? & ? & ? & ? & ?).
        unfold pool_ok; split_and!; try done. specialize (Hle id). lia.
  - rewrite delete_take_drop. apply Forall_app. split.
    + by apply Forall_take.
    + by apply Forall_drop.
Qed.

Lemma consistent_reset s id faults r w' :
  consistent s →
  reset faults id (world s) = Some (r, w') →
  consistent (mkProgram w' (handles s)) ∧ r = Ok ().
Proof.
  intros [Hpools Hhs] Hreset. unfold reset in Hreset.
  destruct (pools (world s) !! id) as [self|] eqn:Hw; [|done].
  unfold RaiiObjectPool_dtor in Hreset.
  rewrite destructor_loop_deletes in Hreset. injection Hreset as <- <-.
  split; [|done]. split; simpl; [|done].
  intros id' self' Hid'.
  apply lookup_delete_Some in Hid' as [_ Hid'].
  by apply Hpools.
Qed.

Lemma consistent_step op s s' :
  consistent s → step op s = Some s' → consistent s'.
Proof.
  intros Hs Hstep. destruct op as [f lim|id|k faults|id faults]; simpl in Hstep.
  - destruct (lim <=? SIZE_MAX) eqn:Hmax; [|done].
    injection Hstep as <-. apply consistent_create; [|done].
    by apply N.leb_le.
  - destruct (acquire_on id (world s)) as [[r w']|] eqn:Hacq; [|done].
    destruct (consistent_acquire _ _ _ _ Hs Hacq) as [Hc _].
    destruct r as [h|e|]; [| |done]; injection Hstep as <-; simpl in Hc.
    + done.
    + by rewrite app_nil_r in Hc.
  - destruct (handles s !! k) as [h|] eqn:Hk; [|done].
    destruct (dispose faults h (world s)) as [r w'] eqn:Hdis.
    destruct r; [|done..]. injection Hstep as <-.
    by eapply consistent_dispose.
  - destruct (reset faults id (world s)) as [[r w']|] eqn:Hreset; [|done].
    destruct (consistent_reset _ _ _ _ _ Hs Hreset) as [Hc ->].
    by injection Hstep as <-.
Qed.

Lemma consistent_run ops : ∀ s s',
  consistent s → run ops s = Some s' → consistent s'.
Proof.
  induction ops as [|op ops IH]; intros s s' Hs Hrun; simpl in Hrun.
  - by injection Hrun as <-.
  - destruct (step op s) as [s1|] eqn:Hstep; [|done].
    eapply IH; [|exact Hrun]. by eapply consistent_step.
Qed.
End Preservation.

(** What one client operation does to the counter of a pool that is alive
    before and after it. *)
Lemma step_allocated op s s' id self self' :
  consistent s →
  step op s = Some s' →
  pools (world s) !! id = Some self →
  pools (world s') !! id = Some self' →
  _allocated self' = _allocated self
  ∨ _allocated self' = size_incr (_allocated self)
    ∧ (_limit self = Unlimited ∨ _allocated self < _limit self).
Proof.
  intros [Hpools Hhs] Hstep Hw Hw'.
  pose proof (Hpools id self Hw) as Hok.
  destruct op as [f lim|id0|k faults|id0 faults]; simpl in Hstep.
  - destruct (lim <=? SIZE_MAX); [|done]. injection Hstep as <-.
    simpl in Hw'. destruct Hok as [Hid _].
    rewrite lookup_insert_ne in Hw' by lia. left. congruence.
  - unfold acquire_on in Hstep.
    destruct (pools (world s) !! id0) as [self0|] eqn:Hw0; [|done].
    destruct (acquire id0 self0) as [r self0'] eqn:Hacq.
    assert (pools (world s') = <[id0 := self0']> (pools (world s))) as Hp.
    { destruct r; [| |done]; by injection Hstep as <-. }
    rewrite Hp in Hw'.
    destruct (decide (id = id0)) as [->|Hne].
    + rewrite lookup_insert_eq in Hw'. injection Hw' as <-.
      rewrite Hw in Hw0. injection Hw0 as <-.
      by destruct (acquire_pool_ok _ _ _ _ _ _ Hok Hacq) as (_ & _ & _ & H).
    + rewrite lookup_insert_ne in Hw' by done. left. congruence.
  - destruct (handles s !! k) as [h|] eqn:Hk; [|done].
    destruct (dispose faults h (world s)) as [r w'] eqn:Hdis.
    destruct r; [|done..]. injection Hstep as <-. simpl in Hw'.
    apply dispose_effect in Hdis as [_ [Hp|(id0 & self0 & _ & Hw0 & Hp)]];
      rewrite Hp in Hw'.
    + left. congruence.
    + destruct (decide (id = id0)) as [->|Hne].
      * rewrite lookup_insert_eq in Hw'. injection Hw' as <-.
        rewrite Hw in Hw0. injection Hw0 as <-. by left.
      * rewrite lookup_insert_ne in Hw' by done. left. congruence.
  - unfold reset in Hstep.
    destruct (pools (world s) !! id0) as [self0|] eqn:Hw0; [|done].
    unfold RaiiObjectPool_dtor in Hstep.
    rewrite destructor_loop_deletes in Hstep. injection Hstep as <-.
    simpl in Hw'. apply lookup_delete_Some in Hw' as [_ Hw'].
    left. congruence.
Qed.

Lemma count_returned_all outcome n :
  (∀ k, (k < n)%nat → has_returned (outcome k) = true) →
  count_returned outcome n = n.
Proof.
  induction n as [|n IH]; intros H; simpl; [done|].
  rewrite H by lia. rewrite IH; [done|]. intros k Hk. apply H. lia.
Qed.

(** C3.  In every state a client can reach, for every live pool: when the
    limit is not [Unlimited], [0 ≤ pooled() ≤ allocated() ≤ limit()]; when
    it is [Unlimited], [0 ≤ pooled() ≤ allocated()] as long as the factory
    has been invoked at most [SIZE_MAX] times, that is, as long as the
    [size_t] counter has not wrapped. *)
Theorem pool_invariant :
  ∀ (ops : list Op) (s : Program) (id : PoolId) (self : RaiiObjectPool),
    run ops initial = Some s →
    pools (world s) !! id = Some self →
    (limit self ≠ Unlimited →
       0 ≤ pooled self ∧ pooled self ≤ allocated self ∧ allocated self ≤ limit self)
    ∧ (limit self = Unlimited →
       N.of_nat (invoked (_factory self)) ≤ SIZE_MAX →
       0 ≤ pooled self ∧ pooled self ≤ allocated self).
Proof.
  intros ops s id self Hrun Hw.
  destruct (consistent_run ops initial s consistent_initial Hrun) as [Hpools _].
  destruct (Hpools id self Hw) as (_ & Hmax & _ & Hal & Hlim & Hcnt).
  unfold limit, allocated, pooled, SIZE_MAX in *. split.
  - intros Hne. specialize (Hlim Hne).
    rewrite Hal, N.mod_small by lia. lia.
  - intros _ Hinv. rewrite Hal, N.mod_small by lia. lia.
Qed.

(** C4.  In every state a client can reach, for every live pool:
    [allocated()] is the number of invocations of the factory modulo
    [2^64]; so when every invocation returned and there were at most
    [SIZE_MAX] of them, it is the number of invocations that returned.
    No client operation makes [allocated()] smaller, as long as the
    counter is not about to wrap (a limit is set, or the counter is below
    [SIZE_MAX]); releases and the destruction of objects leave it as it
    is. *)
Theorem allocated_conservation :
  ∀ (ops : list Op) (s : Program) (id : PoolId) (self : RaiiObjectPool),
    run ops initial = Some s →
    pools (world s) !! id = Some self →
    allocated self = N.of_nat (invoked (_factory self)) mod 2 ^ 64
    ∧ ((∀ k, (k < invoked (_factory self))%nat →
          has_returned (outcome (_factory self) k) = true) →
       N.of_nat (invoked (_factory self)) ≤ SIZE_MAX →
       allocated self = N.of_nat (returned (_factory self)))
    ∧ (∀ op s' self',
         step op s = Some s' →
         pools (world s') !! id = Some self' →
         limit self ≠ Unlimited ∨ allocated self < SIZE_MAX →
         allocated self ≤ allocated self')
    ∧ (∀ k faults s' self',
         step (OpDispose k faults) s = Some s' →
         pools (world s') !! id = Some self' →
         allocated self' = allocated self).
Proof.
  intros ops s id self Hrun Hw.
  pose proof (consistent_run ops initial s consistent_initial Hrun) as Hs.
  destruct (proj1 Hs id self Hw) as (_ & Hmax & _ & Hal & Hlim & Hcnt).
  unfold limit, allocated, SIZE_MAX in *. split_and!.
  - exact Hal.
  - intros Hall Hinv. unfold returned. rewrite count_returned_all by done.
    rewrite Hal. apply N.mod_small. lia.
  - intros op s' self' Hstep Hw' Hroom.
    destruct (step_allocated op s s' id self self' Hs Hstep Hw Hw')
      as [->|[-> Hcan]]; [lia|].
    rewrite size_incr_small; unfold SIZE_MAX; lia.
  - intros k faults s' self' Hstep Hw'. simpl in Hstep.
    destruct (handles s !! k) as [h|] eqn:Hk; [|done].
    destruct (dispose faults h (world s)) as [r w'] eqn:Hdis.
    destruct r; [|done..]. injection Hstep as <-. simpl in Hw'.
    apply dispose_effect in Hdis as [_ [Hp|(id0 & self0 & _ & Hw0 & Hp)]];
      rewrite Hp in Hw'.
    + congruence.
    + destruct (decide (id = id0)) as [->|Hne].
      * rewrite lookup_insert_eq in Hw'. injection Hw' as <-.
        rewrite Hw in Hw0. by injection Hw0 as <-.
      * rewrite lookup_insert_ne in Hw' by done. congruence.
Qed.

Lemma pool_invariant_witness :
  (run sample_ops initial = Some sample_state
   ∧ pools (world sample_state) !! 0%nat = Some sample_pool
   ∧ limit sample_pool ≠ Unlimited
   ∧ 0 ≤ pooled sample_pool
   ∧ pooled sample_pool ≤ allocated sample_pool
   ∧ allocated sample_pool ≤ limit sample_pool)
  ∧ (run sample_ops_unlimited initial = Some sample_state_unlimited
     ∧ pools (world sample_state_unlimited) !! 0%nat = Some sample_pool_unlimited
     ∧ limit sample_pool_unlimited = Unlimited
     ∧ N.of_nat (invoked (_factory sample_pool_unlimited)) ≤ SIZE_MAX
     ∧ 0 ≤ pooled sample_pool_unlimited
     ∧ pooled sample_pool_unlimited ≤ allocated sample_pool_unlimited).
Proof.
  split.
  - assert (run sample_ops initial = Some sample_state) as Hrun by reflexivity.
    assert (pools (world sample_state) !! 0%nat = Some sample_pool) as Hw
      by reflexivity.
    assert (limit sample_pool ≠ Unlimited) as Hl by discriminate.
    split; [exact Hrun|]. split; [exact Hw|]. split; [exact Hl|].
    exact (proj1 (pool_invariant sample_ops sample_state 0%nat sample_pool Hrun Hw) Hl).
  - assert (run sample_ops_unlimited initial = Some sample_state_unlimited) as Hrun
      by reflexivity.
    assert (pools (world sample_state_unlimited) !! 0%nat = Some sample_pool_unlimited)
      as Hw by reflexivity.
    assert (N.of_nat (invoked (_factory sample_pool_unlimited)) ≤ SIZE_MAX) as Hi
      by (simpl; unfold SIZE_MAX; lia).
    split; [exact Hrun|]. split; [exact Hw|]. split; [reflexivity|].
    split; [exact Hi|].
    exact (proj2 (pool_invariant sample_ops_unlimited sample_state_unlimited 0%nat
                    sample_pool_unlimited Hrun Hw) eq_refl Hi).
Defined.

Lemma allocated_conservation_witness :
  run sample_ops initial = Some sample_state
  ∧ pools (world sample_state) !! 0%nat = Some sample_pool
  ∧ (∀ k, (k < invoked (_factory sample_pool))%nat →
       has_returned (outcome (_factory sample_pool) k) = true)
  ∧ N.of_nat (invoked (_factory sample_pool)) ≤ SIZE_MAX
  ∧ step (OpAcquire 0%nat) sample_state = Some sample_state_next
  ∧ limit sample_pool ≠ Unlimited
  ∧ allocated sample_pool = N.of_nat (invoked (_factory sample_pool)) mod 2 ^ 64
  ∧ allocated sample_pool = N.of_nat (returned (_factory sample_pool))
  ∧ allocated sample_pool ≤ 2.
Proof.
  assert (run sample_ops initial = Some sample_state) as Hrun by reflexivity.
  assert (pools (world sample_state) !! 0%nat = Some sample_pool) as Hw
    by reflexivity.
  assert (∀ k, (k < invoked (_factory sample_pool))%nat →
            has_returned (outcome (_factory sample_pool) k) = true) as Hall
    by (intros k _; reflexivity).
  assert (N.of_nat (invoked (_factory sample_pool)) ≤ SIZE_MAX) as Hi
    by (simpl; unfold SIZE_MAX; lia).
  assert (step (OpAcquire 0%nat) sample_state = Some sample_state_next) as Hstep
    by reflexivity.
  assert (limit sample_pool ≠ Unlimited) as Hl by discriminate.
  destruct (allocated_conservation sample_ops sample_state 0%nat sample_pool Hrun Hw)
    as (H1 & H2 & H3 & _).
  split; [exact Hrun|]. split; [exact Hw|]. split; [exact Hall|].
  split; [exact Hi|]. split; [exact Hstep|]. split; [exact Hl|].
  split; [exact H1|]. split; [exact (H2 Hall Hi)|].
  exact (H3 (OpAcquire 0%nat) sample_state_next
            (mkPool 2 2 (mkFactory fresh_objects 2) []) Hstep eq_refl (or_introl Hl)).
Defined.

(** * Further properties of the header *)

(** ** Loops of [acquire], whatever the factory does *)

Lemma iter_size_incr_mod k : ∀ a,
  Nat.iter k size_incr (a mod 2 ^ 64) = (a + N.of_nat k) mod 2 ^ 64.
Proof.
  induction k as [|k IH]; intros a.
  - simpl. by rewrite N.add_0_r.
  - rewrite Nat.iter_succ, IH, size_incr_mod. f_equal. lia.
Qed.

(** [n] calls on a pool with an empty stack and room for [n] invocations
    of the factory: each call invokes it once and hands back what it gave. *)
Lemma acquire_loop_factory n : ∀ id w self,
  pools w !! id = Some self →
  _poolContainer self = [] →
  _limit self ≤ SIZE_MAX →
  _limit self = Unlimited ∨ _allocated self + N.of_nat n ≤ _limit self →
  ∃ obs,
    acquire_loop n id w =
      Some (obs, store id (mkPool (_limit self) (Nat.iter n size_incr (_allocated self))
                             (mkFactory (outcome (_factory self))
                                        (invoked (_factory self) + n)) []) w)
    ∧ length obs = n
    ∧ ∀ i, (i < n)%nat →
        obs !! i =
          Some (mkObs (handle_result id (outcome (_factory self)
                                           (invoked (_factory self) + i)))
                      (Nat.iter (S i) size_incr (_allocated self)) 0).
Proof.
  induction n as [|n IH]; intros id w self Hw Hs Hmax Hl.
  - exists []. simpl. rewrite Nat.add_0_r.
    replace (mkFactory _ _) with (_factory self) by (by destruct (_factory self)).
    rewrite <- Hs, pool_eta, store_same by done.
    repeat split. intros i Hi. lia.
  - assert (_limit self = Unlimited ∨ _allocated self < _limit self) as Hroom.
    { destruct Hl; [by left|right; lia]. }
    assert (acquire_on id w =
              Some (handle_result id (outcome (_factory self) (invoked (_factory self))),
                    store id (mkPool (_limit self) (size_incr (_allocated self))
                                (mkFactory (outcome (_factory self))
                                           (S (invoked (_factory self)))) []) w)) as Hacq.
    { unfold acquire_on, acquire. rewrite Hw, Hs.
      assert ((_limit self =? Unlimited) || (_allocated self <? _limit self) = true) as ->.
      { apply orb_true_iff. destruct Hroom as [Hr|Hr].
        - left. by apply N.eqb_eq.
        - right. by apply N.ltb_lt. }
      unfold call. by destruct (outcome _ _). }
    set (self1 := mkPool _ _ _ _) in Hacq.
    destruct (IH id (store id self1 w) self1) as (obs & Hloop & Hlen & Hobs).
    + apply lookup_store.
    + reflexivity.
    + exact Hmax.
    + simpl. destruct Hl as [Hl|Hl]; [by left|right].
      rewrite size_incr_small; lia.
    + eexists. simpl acquire_loop. rewrite Hacq, Hloop.
      rewrite store_store. simpl.
      rewrite <- Nat.add_succ_r.
      rewrite <- (Nat.iter_succ_r n size_incr).
      split; [reflexivity|]. split; [simpl; by rewrite Hlen|].
      intros [|i] Hi.
      * simpl. unfold observe. rewrite lookup_store.
        rewrite Nat.add_0_r. reflexivity.
      * simpl. rewrite Hobs by lia. subst self1. simpl.
        rewrite <- Nat.add_succ_r, Nat.iter_swap. reflexivity.
Qed.

(** X1.  Once a limited pool is exhausted (empty stack, [_allocated] at
    the limit), any number of further calls of [acquire] each return the
    empty handle and leave the world exactly as it is: nothing is
    constructed, counted or logged until a handle is released. *)
Theorem exhausted_pool_stays_exhausted :
  ∀ (n : nat) (id : PoolId) (w : World) (self : RaiiObjectPool),
    pools w !! id = Some self →
    _poolContainer self = [] →
    _limit self ≠ Unlimited →
    _limit self ≤ _allocated self →
    acquire_loop n id w =
      Some (replicate n (mkObs (Ok empty_handle) (allocated self) 0), w).
Proof.
  induction n as [|n IH]; intros id w self Hw Hs Hl Ha; [reflexivity|].
  simpl. rewrite (acquire_on_exhausted id w self Hw Hs Hl Ha).
  rewrite (IH id w self Hw Hs Hl Ha). unfold observe. rewrite Hw.
  unfold pooled. rewrite Hs. reflexivity.
Qed.

Lemma exhausted_pool_stays_exhausted_witness :
  let w := mkWorld {[0%nat := mkPool 2 2 (mkFactory fresh_objects 2) []]} 1%nat [] in
  let self := mkPool 2 2 (mkFactory fresh_objects 2) [] in
  pools w !! 0%nat = Some self
  ∧ _poolContainer self = []
  ∧ _limit self ≠ Unlimited
  ∧ _limit self ≤ _allocated self
  ∧ acquire_loop 5 0%nat w =
      Some (replicate 5 (mkObs (Ok empty_handle) (allocated self) 0), w).
Proof.
  intros w self.
  assert (pools w !! 0%nat = Some self) as Hw by reflexivity.
  assert (_limit self ≠ Unlimited) as Hl by discriminate.
  assert (_limit self ≤ _allocated self) as Ha by (simpl; lia).
  split; [exact Hw|]. split; [reflexivity|]. split; [exact Hl|]. split; [exact Ha|].
  exact (exhausted_pool_stays_exhausted 5 0%nat w self Hw eq_refl Hl Ha).
Defined.

(** X2.  Constructions that fail use up the limit.  A pool with limit [n]
    whose factory throws on its first [n] invocations: each of the first
    [n] calls of [acquire] throws and still raises [allocated()] by one;
    after them no object exists, yet the pool is exhausted: the next call
    returns the empty handle without invoking the factory again. *)
Theorem failed_constructions_use_up_limit :
  ∀ (f : nat → FactoryResult) (n : nat) (w : World),
    (0 < n)%nat →
    N.of_nat n ≤ SIZE_MAX →
    (∀ k, (k < n)%nat → ∃ e, f k = Raises e) →
    let (id, w0) := create (mkFactory f 0) (N.of_nat n) w in
    ∃ obs w1 self1,
      acquire_loop n id w0 = Some (obs, w1)
      ∧ length obs = n
      ∧ (∀ i o, obs !! i = Some o →
           (∃ e, f i = Raises e ∧ result o = Throw e)
           ∧ allocated_after o = N.of_nat (S i)
           ∧ pooled_after o = 0)
      ∧ handles_of obs = []
      ∧ pools w1 !! id = Some self1
      ∧ allocated self1 = N.of_nat n
      ∧ invoked (_factory self1) = n
      ∧ returned (_factory self1) = 0%nat
      ∧ acquire_on id w1 = Some (Ok empty_handle, w1).
Proof.
  intros f n w Hn Hmax Hf. unfold create.
  set (id := next_pool w). set (w0 := mkWorld _ _ _).
  set (self0 := RaiiObjectPool_ctor (mkFactory f 0) (N.of_nat n)).
  assert (pools w0 !! id = Some self0) as Hw0 by apply lookup_insert_eq.
  destruct (acquire_loop_factory n id w0 self0 Hw0 eq_refl Hmax) as (obs & Hloop & Hlen & Hobs).
  { right. simpl. lia. }
  simpl in Hloop, Hobs.
  rewrite iter_size_incr in Hloop by lia.
  assert (∀ i o, obs !! i = Some o → ∃ e, f i = Raises e ∧ result o = Throw e
            ∧ allocated_after o = N.of_nat (S i) ∧ pooled_after o = 0) as Hall.
  { intros i o Hio.
    assert (i < n)%nat as Hi by (rewrite <- Hlen; by eapply lookup_lt_Some).
    rewrite (Hobs i Hi) in Hio. injection Hio as <-. simpl.
    destruct (Hf i Hi) as [e He]. exists e. rewrite He. simpl.
    split; [done|]. split; [done|]. split; [|done].
    rewrite <- Nat.iter_succ, iter_size_incr; lia. }
  eexists obs, _, _. split; [exact Hloop|]. split; [exact Hlen|].
  split; [|split; [|split; [apply lookup_store|]]].
  - intros i o Hio. destruct (Hall i o Hio) as (e & ? & ? & ? & ?). eauto.
  - clear -Hall. unfold handles_of.
    assert (∀ i o, obs !! i = Some o → ∃ e, result o = Throw e) as H.
    { intros i o Hio. destruct (Hall i o Hio) as (e & _ & ? & _). eauto. }
    clear Hall. induction obs as [|o obs IH]; [reflexivity|].
    simpl. destruct (H 0%nat o eq_refl) as [e ->].
    apply IH. intros i o' Hi. exact (H (S i) o' Hi).
  - unfold allocated. simpl. split; [lia|]. split; [reflexivity|]. split.
    + unfold returned. simpl. clear -Hf. induction n as [|n IH]; [reflexivity|].
      simpl. destruct (Hf n) as [e ->]; [lia|]. simpl. apply IH.
      intros k Hk. apply Hf. lia.
    + eapply acquire_on_exhausted.
      * apply lookup_store.
      * reflexivity.
      * simpl. unfold Unlimited. lia.
      * simpl. lia.
Qed.

Lemma failed_constructions_use_up_limit_witness :
  (0 < 2)%nat
  ∧ N.of_nat 2 ≤ SIZE_MAX
  ∧ (∀ k, (k < 2)%nat → ∃ e, throwing_factory k = Raises e)
  ∧ let (id, w0) := create (mkFactory throwing_factory 0) (N.of_nat 2) (mkWorld ∅ 0%nat []) in
    ∃ obs w1 self1,
      acquire_loop 2 id w0 = Some (obs, w1)
      ∧ length obs = 2%nat
      ∧ (∀ i o, obs !! i = Some o →
           (∃ e, throwing_factory i = Raises e ∧ result o = Throw e)
           ∧ allocated_after o = N.of_nat (S i)
           ∧ pooled_after o = 0)
      ∧ handles_of obs = []
      ∧ pools w1 !! id = Some self1
      ∧ allocated self1 = N.of_nat 2
      ∧ invoked (_factory self1) = 2%nat
      ∧ returned (_factory self1) = 0%nat
      ∧ acquire_on id w1 = Some (Ok empty_handle, w1).
Proof.
  assert (0 < 2)%nat as H1 by lia.
  assert (N.of_nat 2 ≤ SIZE_MAX) as H2 by (unfold SIZE_MAX; lia).
  assert (∀ k, (k < 2)%nat → ∃ e, throwing_factory k = Raises e) as H3
    by (intros k _; eexists; reflexivity).
  split; [exact H1|]. split; [exact H2|]. split; [exact H3|].
  exact (failed_constructions_use_up_limit throwing_factory 2 (mkWorld ∅ 0%nat []) H1 H2 H3).
Defined.

(** X3.  An unlimited pool is never exhausted.  Whatever [n] is and
    whatever the factory does, [n] calls of [acquire] on a new unlimited
    pool each invoke the factory once and hand back what it gave (the
    object, or the exception); [allocated()] after the [i]-th call is [i]
    modulo [2^64], and [pooled()] stays 0. *)
Theorem unlimited_pool_never_exhausted :
  ∀ (f : nat → FactoryResult) (n : nat) (w : World),
    let (id, w0) := create (mkFactory f 0) Unlimited w in
    ∃ obs w1 self1,
      acquire_loop n id w0 = Some (obs, w1)
      ∧ length obs = n
      ∧ (∀ i, (i < n)%nat →
           obs !! i = Some (mkObs (handle_result id (f i))
                                  (N.of_nat (S i) mod 2 ^ 64) 0))
      ∧ pools w1 !! id = Some self1
      ∧ invoked (_factory self1) = n
      ∧ allocated self1 = N.of_nat n mod 2 ^ 64
      ∧ pooled self1 = 0.
Proof.
  intros f n w. unfold create.
  set (id := next_pool w). set (w0 := mkWorld _ _ _).
  set (self0 := RaiiObjectPool_ctor (mkFactory f 0) Unlimited).
  assert (pools w0 !! id = Some self0) as Hw0 by apply lookup_insert_eq.
  destruct (acquire_loop_factory n id w0 self0 Hw0 eq_refl) as (obs & Hloop & Hlen & Hobs).
  { simpl. unfold Unlimited, SIZE_MAX. lia. }
  { by left. }
  simpl in Hloop, Hobs.
  eexists obs, _, _. split; [exact Hloop|]. split; [exact Hlen|].
  split; [|split; [apply lookup_store|]].
  - intros i Hi. rewrite (Hobs i Hi). do 3 f_equal.
    change 0 with (0 mod 2 ^ 64) at 1.
    rewrite <- Nat.iter_succ, iter_size_incr_mod. f_equal.
  - unfold allocated. simpl. split; [reflexivity|]. split; [|reflexivity].
    change 0 with (0 mod 2 ^ 64) at 1. by rewrite iter_size_incr_mod.
Qed.

(** ** The disposal policy when insertions fail *)

(** X4.  What the policy does when the owner is alive, the insertion
    fails once with [std::bad_alloc] and succeeds when it is tried again.
    The handle given to [add] still owns the object when [add] throws, so
    its destruction calls the policy a second time, and that call inserts
    the object; the handler of the first call then deletes it.  Disposal
    returns normally; [add] has been called twice; the object has been
    pushed on the recycle stack ([pooled()] is one more, nothing else in
    the pool changed) and [delete] has been executed on it once: the pool
    holds an object that has been deleted. *)
Theorem failed_insertion_recycles_deleted_object :
  ∀ (h : UniquePtrToObject) (p : addr) (id : PoolId)
    (w : World) (self : RaiiObjectPool),
    get h = Some p →
    _ptrToOwnerPool (get_deleter h) = Some id →
    pools w !! id = Some self →
    ∃ self' w',
      dispose [bad_alloc] h w = (Ok (), w')
      ∧ pools w' = <[id := self']> (pools w)
      ∧ _poolContainer self' =
          mkUniquePtr (Some p) (mkDeleter (Some id)) :: _poolContainer self
      ∧ pooled self' = pooled self + 1
      ∧ allocated self' = allocated self
      ∧ limit self' = limit self
      ∧ _factory self' = _factory self
      ∧ next_pool w' = next_pool w
      ∧ trace w' = [EvDelete p; EvAdd id p; EvAdd id p] ++ trace w.
Proof.
  intros h p id w self Hp Hd Hw.
  eexists _, _. unfold dispose, unique_ptr_dtor. rewrite Hp.
  simpl operator_call. unfold operator_call_body at 1. unfold lock.
  rewrite Hd, Hw. simpl add. cbv beta iota zeta.
  unfold unique_ptr_dtor. simpl get. simpl get_deleter. cbv beta match.
  change (operator_call_body (λ _ _ w', (Ok (), w')) None)
    with (operator_call []).
  rewrite (operator_call_recycles (mkDeleter (Some id)) p _ id self eq_refl
             (lookup_store _ _ _)).
  unfold delete_object, log, store. simpl.
  rewrite insert_insert_eq.
  split; [reflexivity|]. split; [reflexivity|]. split; [reflexivity|].
  split; [unfold pooled; simpl; lia|]. repeat split.
Qed.

Lemma failed_insertion_recycles_deleted_object_witness :
  let w := snd (test_world Unlimited) in
  let self := RaiiObjectPool_ctor (mkFactory fresh_objects 0) Unlimited in
  let h := mkUniquePtr (Some 7%nat) (mkDeleter (Some 0%nat)) in
  get h = Some 7%nat
  ∧ _ptrToOwnerPool (get_deleter h) = Some 0%nat
  ∧ pools w !! 0%nat = Some self
  ∧ ∃ self' w',
      dispose [bad_alloc] h w = (Ok (), w')
      ∧ pools w' = <[0%nat := self']> (pools w)
      ∧ _poolContainer self' =
          mkUniquePtr (Some 7%nat) (mkDeleter (Some 0%nat)) :: _poolContainer self
      ∧ pooled self' = pooled self + 1
      ∧ allocated self' = allocated self
      ∧ limit self' = limit self
      ∧ _factory self' = _factory self
      ∧ next_pool w' = next_pool w
      ∧ trace w' = [EvDelete 7%nat; EvAdd 0%nat 7%nat; EvAdd 0%nat 7%nat] ++ trace w.
Proof.
  intros w self h.
  assert (pools w !! 0%nat = Some self) as Hw by reflexivity.
  split; [reflexivity|]. split; [reflexivity|]. split; [exact Hw|].
  exact (failed_insertion_recycles_deleted_object h 7%nat 0%nat w self
           eq_refl eq_refl Hw).
Defined.

(** X5.  An insertion that fails with anything but [std::bad_alloc] ends
    the program, whatever the later insertions would do: the handler does
    not catch the exception, and it cannot leave the destructor of the
    handle. *)
Theorem other_exception_ends_program :
  ∀ (e : exception) (faults : list exception) (h : UniquePtrToObject) (p : addr)
    (id : PoolId) (w : World),
    get h = Some p →
    _ptrToOwnerPool (get_deleter h) = Some id →
    is_Some (pools w !! id) →
    is_bad_alloc e = false →
    fst (dispose (e :: faults) h w) = Terminate
    ∧ fst (operator_call (e :: faults) (get_deleter h) p w) ≠ Ok ().
Proof.
  intros e faults h p id w Hp Hd [self Hw] He.
  unfold dispose, unique_ptr_dtor. rewrite Hp.
  simpl operator_call. unfold operator_call_body, lock. rewrite Hd, Hw.
  simpl add. cbv beta iota zeta. unfold unique_ptr_dtor. simpl get.
  simpl get_deleter. cbv beta match.
  destruct (operator_call faults _ p _) as [[[]| |] w1]; rewrite ?He; simpl; done.
Qed.

Lemma other_exception_ends_program_witness :
  let w := snd (test_world Unlimited) in
  let h := mkUniquePtr (Some 7%nat) (mkDeleter (Some 0%nat)) in
  get h = Some 7%nat
  ∧ _ptrToOwnerPool (get_deleter h) = Some 0%nat
  ∧ is_Some (pools w !! 0%nat)
  ∧ is_bad_alloc (other_exception 3) = false
  ∧ fst (dispose [other_exception 3; bad_alloc] h w) = Terminate
  ∧ fst (operator_call [other_exception 3; bad_alloc] (get_deleter h) 7%nat w) ≠ Ok ().
Proof.
  intros w h.
  assert (is_Some (pools w !! 0%nat)) as Hs by (vm_compute; eauto).
  split; [reflexivity|]. split; [reflexivity|]. split; [exact Hs|].
  split; [reflexivity|].
  exact (other_exception_ends_program (other_exception 3) [bad_alloc] h 7%nat 0%nat w
           eq_refl eq_refl Hs eq_refl).
Defined.

(** ** Handles that outlive their pool *)

(** Releasing handles whose pool is gone deletes their objects in turn. *)
Lemma release_all_expired hs : ∀ id w,
  Forall (checked_out_from id) hs →
  pools w !! id = None →
  release_all hs w =
    (Ok (),
     mkWorld (pools w) (next_pool w) (rev (EvDelete <$> omap get hs) ++ trace w)).
Proof.
  induction hs as [|h hs IH]; intros id w Hhs Hw.
  - simpl. by destruct w.
  - apply Forall_cons in Hhs as [[p ->] Hhs].
    simpl release_all. unfold dispose, unique_ptr_dtor. simpl get.
    simpl get_deleter. cbv beta match.
    rewrite (operator_call_expired [] _ p w id) by done.
    rewrite (IH id _ Hhs) by done.
    simpl. rewrite <- !app_assoc. reflexivity.
Qed.

(** X6.  Handles that outlive their pool (the scenario of the test
    AcquireDeletePoolRelease, for every [K]).  [K] new objects are
    acquired and kept; the pool is dropped: its destructor finds an empty
    stack and deletes nothing.  Releasing the [K] handles afterwards
    deletes each of the [K] objects once, in the order of release, calls
    [add] for none of them and touches no pool. *)
Theorem outstanding_handles_after_teardown :
  ∀ (faults : list exception) (f : nat → FactoryResult) (lim : N) (K : nat) (w : World),
    lim ≤ SIZE_MAX →
    lim = Unlimited ∨ N.of_nat K ≤ lim →
    (∀ k, (k < K)%nat → ∃ p, f k = Returns (Some p)) →
    let (id, w0) := create (mkFactory f 0) lim w in
    ∃ obs w1 w2 w3 objs,
      acquire_loop K id w0 = Some (obs, w1)
      ∧ omap get (handles_of obs) = objs
      ∧ length objs = K
      ∧ reset faults id w1 = Some (Ok (), w2)
      ∧ trace w2 = trace w1
      ∧ pools w2 = delete id (pools w1)
      ∧ release_all (handles_of obs) w2 = (Ok (), w3)
      ∧ trace w3 = rev (EvDelete <$> objs) ++ trace w2
      ∧ pools w3 = pools w2.
Proof.
  intros faults f lim K w Hmax Hl Hf.
  destruct (acquire_then_release f lim K w Hmax Hl Hf) as
    (obs & hs & Hloop & Hhs & Hall & Hlen & _).
  unfold create in *. simpl in Hloop.
  set (id := next_pool w) in *.
  assert (length (omap get hs) = K) as Hobjs.
  { clear -Hall Hlen. subst K. induction Hall as [|h hs [p ->] _ IH]; [done|].
    simpl. by f_equal. }
  eexists obs, _, _, _, (omap get hs).
  split; [exact Hloop|]. rewrite Hhs. split; [reflexivity|].
  split; [exact Hobjs|].
  unfold reset. rewrite lookup_store. unfold RaiiObjectPool_dtor. simpl.
  split; [reflexivity|]. split; [reflexivity|]. split; [reflexivity|].
  rewrite (release_all_expired hs id); [|exact Hall|simpl; apply lookup_delete_eq].
  split; [reflexivity|]. split; reflexivity.
Qed.

Lemma outstanding_handles_after_teardown_witness :
  (Unlimited ≤ SIZE_MAX)
  ∧ (Unlimited = Unlimited ∨ N.of_nat 4 ≤ Unlimited)
  ∧ (∀ k, (k < 4)%nat → ∃ p, fresh_objects k = Returns (Some p))
  ∧ let (id, w0) := create (mkFactory fresh_objects 0) Unlimited (mkWorld ∅ 0%nat []) in
    ∃ obs w1 w2 w3 objs,
      acquire_loop 4 id w0 = Some (obs, w1)
      ∧ omap get (handles_of obs) = objs
      ∧ length objs = 4%nat
      ∧ reset [] id w1 = Some (Ok (), w2)
      ∧ trace w2 = trace w1
      ∧ pools w2 = delete id (pools w1)
      ∧ release_all (handles_of obs) w2 = (Ok (), w3)
      ∧ trace w3 = rev (EvDelete <$> objs) ++ trace w2
      ∧ pools w3 = pools w2.
Proof.
  assert (Unlimited ≤ SIZE_MAX) as H1 by (unfold Unlimited, SIZE_MAX; lia).
  assert (Unlimited = Unlimited ∨ N.of_nat 4 ≤ Unlimited) as H2 by (by left).
  assert (∀ k, (k < 4)%nat → ∃ p, fresh_objects k = Returns (Some p)) as H3
    by (intros k _; eexists; reflexivity).
  split; [exact H1|]. split; [exact H2|]. split; [exact H3|].
  exact (outstanding_handles_after_teardown [] fresh_objects Unlimited 4
           (mkWorld ∅ 0%nat []) H1 H2 H3).
Defined.

(** ** More on reachable states *)

(** What [acquire] never changes: the limit and the factory's behaviour;
    the factory is invoked at most once. *)
Lemma acquire_static this self r self' :
  acquire this self = (r, self') →
  _limit self' = _limit self
  ∧ outcome (_factory self') = outcome (_factory self)
  ∧ (invoked (_factory self) ≤ invoked (_factory self'))%nat.
Proof.
  unfold acquire. destruct (_poolContainer self) as [|top rest].
  - destruct ((_limit self =? Unlimited) || (_allocated self <? _limit self)).
    + unfold call. destruct (outcome _ _); intros [= <- <-]; simpl; auto.
    + intros [= <- <-]. auto.
  - intros [= <- <-]. simpl. auto.
Qed.

(** The identifiers handed out only grow. *)
Lemma step_next_pool op s s' :
  step op s = Some s' → (next_pool (world s) ≤ next_pool (world s'))%nat.
Proof.
  intros Hstep. destruct op as [f lim|id0|k faults|id0 faults]; simpl in Hstep.
  - destruct (lim <=? SIZE_MAX); [|done]. injection Hstep as <-. simpl. lia.
  - unfold acquire_on in Hstep.
    destruct (pools (world s) !! id0) as [self0|]; [|done].
    destruct (acquire id0 self0) as [[h|e|] self0']; [| |done];
      by injection Hstep as <-.
  - destruct (handles s !! k) as [h|]; [|done].
    destruct (dispose faults h (world s)) as [r w'] eqn:Hdis.
    destruct r; [|done..]. injection Hstep as <-. simpl.
    apply dispose_effect in Hdis as [Hn _]. lia.
  - unfold reset, RaiiObjectPool_dtor in Hstep.
    destruct (pools (world s) !! id0) as [self0|]; [|done].
    rewrite destructor_loop_deletes in Hstep. by injection Hstep as <-.
Qed.

(** A pool that is gone is not brought back by any operation. *)
Lemma step_gone op s s' (id : PoolId) :
  (id < next_pool (world s))%nat →
  pools (world s) !! id = None →
  step op s = Some s' →
  pools (world s') !! id = None.
Proof.
  intros Hid Hw Hstep.
  destruct op as [f lim|id0|k faults|id0 faults]; simpl in Hstep.
  - destruct (lim <=? SIZE_MAX); [|done]. injection Hstep as <-. simpl.
    rewrite lookup_insert_ne by lia. done.
  - unfold acquire_on in Hstep.
    destruct (pools (world s) !! id0) as [self0|] eqn:Hw0; [|done].
    assert (id0 ≠ id) as Hne by congruence.
    destruct (acquire id0 self0) as [[h|e|] self0']; [| |done];
      injection Hstep as <-; simpl; by rewrite lookup_insert_ne.
  - destruct (handles s !! k) as [h|]; [|done].
    destruct (dispose faults h (world s)) as [r w'] eqn:Hdis.
    destruct r; [|done..]. injection Hstep as <-. simpl.
    apply dispose_effect in Hdis as [_ [->|(id0 & self0 & _ & Hw0 & ->)]]; [done|].
    assert (id0 ≠ id) as Hne by congruence. by rewrite lookup_insert_ne.
  - unfold reset, RaiiObjectPool_dtor in Hstep.
    destruct (pools (world s) !! id0) as [self0|]; [|done].
    rewrite destructor_loop_deletes in Hstep. injection Hstep as <-. simpl.
    destruct (decide (id0 = id)) as [->|Hne].
    + apply lookup_delete_eq.
    + by rewrite lookup_delete_ne.
Qed.

(** X7.  A destroyed pool never comes back.  Once a pool that was created
    is gone, no sequence of client operations (also creations of new
    pools) makes its identifier resolve again; so every full handle that
    refers to it, whenever it is let go afterwards, has its object deleted,
    with no call of [add] and no change to any pool. *)
Theorem destroyed_pool_never_resolves_again :
  ∀ (ops : list Op) (s s' : Program) (id : PoolId),
    (id < next_pool (world s))%nat →
    pools (world s) !! id = None →
    run ops s = Some s' →
    pools (world s') !! id = None
    ∧ ∀ faults h p,
        get h = Some p →
        _ptrToOwnerPool (get_deleter h) = Some id →
        dispose faults h (world s') = (Ok (), log (EvDelete p) (world s')).
Proof.
  intros ops s s' id Hid Hw Hrun.
  assert (pools (world s') !! id = None) as Hgone.
  { revert s Hid Hw Hrun. induction ops as [|op ops IH]; intros s Hid Hw Hrun;
      simpl in Hrun.
    - by injection Hrun as <-.
    - destruct (step op s) as [s1|] eqn:Hstep; [|done].
      apply (IH s1); [|by eapply step_gone|done].
      pose proof (step_next_pool _ _ _ Hstep). lia. }
  split; [exact Hgone|].
  intros faults h p Hp Hd. unfold dispose, unique_ptr_dtor. rewrite Hp.
  by rewrite (operator_call_expired faults _ p _ id Hd Hgone).
Qed.

Lemma destroyed_pool_never_resolves_again_witness :
  let s := mkProgram (mkWorld ∅ 1%nat [])
                     [mkUniquePtr (Some 100%nat) (mkDeleter (Some 0%nat))] in
  let ops := [OpCreate fresh_objects 1; OpAcquire 1%nat] in
  ∃ s',
    (0 < next_pool (world s))%nat
    ∧ pools (world s) !! 0%nat = None
    ∧ run ops s = Some s'
    ∧ pools (world s') !! 0%nat = None
    ∧ ∀ faults h p,
        get h = Some p →
        _ptrToOwnerPool (get_deleter h) = Some 0%nat →
        dispose faults h (world s') = (Ok (), log (EvDelete p) (world s')).
Proof.
  intros s ops. eexists.
  assert (0 < next_pool (world s))%nat as H1 by (simpl; lia).
  assert (pools (world s) !! 0%nat = None) as H2 by reflexivity.
  split; [exact H1|]. split; [exact H2|].
  assert (run ops s = Some _) as H3 by reflexivity.
  split; [exact H3|].
  exact (destroyed_pool_never_resolves_again ops s _ 0%nat H1 H2 H3).
Defined.

(** What one operation leaves unchanged in a pool that stays alive. *)
Lemma step_static op s s' id self self' :
  consistent s →
  step op s = Some s' →
  pools (world s) !! id = Some self →
  pools (world s') !! id = Some self' →
  _limit self' = _limit self
  ∧ outcome (_factory self') = outcome (_factory self)
  ∧ (invoked (_factory self) ≤ invoked (_factory self'))%nat.
Proof.
  intros [Hpools Hhs] Hstep Hw Hw'.
  assert (self' = self → _limit self' = _limit self
            ∧ outcome (_factory self') = outcome (_factory self)
            ∧ (invoked (_factory self) ≤ invoked (_factory self'))%nat) as Hsame
    by (by intros ->).
  destruct op as [f lim|id0|k faults|id0 faults]; simpl in Hstep.
  - destruct (lim <=? SIZE_MAX); [|done]. injection Hstep as <-.
    simpl in Hw'. destruct (Hpools id self Hw) as [Hid _].
    rewrite lookup_insert_ne in Hw' by lia. apply Hsame. congruence.
  - unfold acquire_on in Hstep.
    destruct (pools (world s) !! id0) as [self0|] eqn:Hw0; [|done].
    destruct (acquire id0 self0) as [r self0'] eqn:Hacq.
    assert (pools (world s') = <[id0 := self0']> (pools (world s))) as Hp.
    { destruct r; [| |done]; by injection Hstep as <-. }
    rewrite Hp in Hw'.
    destruct (decide (id = id0)) as [->|Hne].
    + rewrite lookup_insert_eq in Hw'. injection Hw' as <-.
      rewrite Hw in Hw0. injection Hw0 as <-.
      by eapply acquire_static.
    + rewrite lookup_insert_ne in Hw' by done. apply Hsame. congruence.
  - destruct (handles s !! k) as [h|] eqn:Hk; [|done].
    destruct (dispose faults h (world s)) as [r w'] eqn:Hdis.
    destruct r; [|done..]. injection Hstep as <-. simpl in Hw'.
    apply dispose_effect in Hdis as [_ [Hp|(id0 & self0 & _ & Hw0 & Hp)]];
      rewrite Hp in Hw'.
    + apply Hsame. congruence.
    + destruct (decide (id = id0)) as [->|Hne].
      * rewrite lookup_insert_eq in Hw'. injection Hw' as <-.
        rewrite Hw in Hw0. injection Hw0 as <-. simpl. auto.
      * rewrite lookup_insert_ne in Hw' by done. apply Hsame. congruence.
  - unfold reset in Hstep.
    destruct (pools (world s) !! id0) as [self0|] eqn:Hw0; [|done].
    unfold RaiiObjectPool_dtor in Hstep.
    rewrite destructor_loop_deletes in Hstep. injection Hstep as <-.
    simpl in Hw'. apply lookup_delete_Some in Hw' as [_ Hw'].
    apply Hsame. congruence.
Qed.

(** X8.  The limit of a pool never changes.  Between any two reachable
    states in which the pool is alive, however many operations lie between
    them, [limit()] is the same, the factory is the same callback, and the
    number of its invocations has not decreased. *)
Theorem limit_is_immutable :
  ∀ (ops ops' : list Op) (s s' : Program) (id : PoolId) (self self' : RaiiObjectPool),
    run ops initial = Some s →
    run ops' s = Some s' →
    pools (world s) !! id = Some self →
    pools (world s') !! id = Some self' →
    limit self' = limit self
    ∧ outcome (_factory self') = outcome (_factory self)
    ∧ (invoked (_factory self) ≤ invoked (_factory self'))%nat.
Proof.
  intros ops ops' s s' id self self' Hrun Hrun' Hw Hw'.
  pose proof (consistent_run ops initial s consistent_initial Hrun) as Hs.
  clear Hrun. unfold limit.
  revert s self Hs Hrun' Hw.
  induction ops' as [|op ops' IH]; intros s self Hs Hrun' Hw; simpl in Hrun'.
  - injection Hrun' as <-. rewrite Hw in Hw'. injection Hw' as <-. auto.
  - destruct (step op s) as [s1|] eqn:Hstep; [|done].
    destruct (pools (world s1) !! id) as [self1|] eqn:Hw1.
    + destruct (step_static op s s1 id self self1 Hs Hstep Hw Hw1) as (H1 & H2 & H3).
      destruct (IH s1 self1) as (H4 & H5 & H6); [by eapply consistent_step|done..|].
      split; [congruence|]. split; [congruence|]. lia.
    + exfalso.
      assert (id < next_pool (world s1))%nat as Hid.
      { destruct (proj1 Hs id self Hw) as [Hid _].
        pose proof (step_next_pool _ _ _ Hstep). lia. }
      assert (pools (world s') !! id = None) as Hgone; [|congruence].
      clear -Hid Hw1 Hrun'. revert s1 Hid Hw1 Hrun'.
      induction ops' as [|op ops' IH]; intros s1 Hid Hw1 Hrun'; simpl in Hrun'.
      * by injection Hrun' as <-.
      * destruct (step op s1) as [s2|] eqn:Hstep; [|done].
        apply (IH s2); [|by eapply step_gone|done].
        pose proof (step_next_pool _ _ _ Hstep). lia.
Qed.

Lemma limit_is_immutable_witness :
  run sample_ops initial = Some sample_state
  ∧ run [OpAcquire 0%nat] sample_state = Some sample_state_next
  ∧ pools (world sample_state) !! 0%nat = Some sample_pool
  ∧ pools (world sample_state_next) !! 0%nat
    = Some (mkPool 2 2 (mkFactory fresh_objects 2) [])
  ∧ limit (mkPool 2 2 (mkFactory fresh_objects 2) []) = limit sample_pool
  ∧ outcome (_factory (mkPool 2 2 (mkFactory fresh_objects 2) []))
    = outcome (_factory sample_pool)
  ∧ (invoked (_factory sample_pool)
     ≤ invoked (_factory (mkPool 2 2 (mkFactory fresh_objects 2) [])))%nat.
Proof.
  assert (run sample_ops initial = Some sample_state) as H1 by reflexivity.
  assert (run [OpAcquire 0%nat] sample_state = Some sample_state_next) as H2
    by reflexivity.
  assert (pools (world sample_state) !! 0%nat = Some sample_pool) as H3
    by reflexivity.
  assert (pools (world sample_state_next) !! 0%nat
          = Some (mkPool 2 2 (mkFactory fresh_objects 2) [])) as H4 by reflexivity.
  split; [exact H1|]. split; [exact H2|]. split; [exact H3|]. split; [exact H4|].
  exact (limit_is_immutable sample_ops [OpAcquire 0%nat] sample_state sample_state_next
           0%nat sample_pool _ H1 H2 H3 H4).
Defined.

(** X9.  Objects are accounted for.  In every reachable state, for every
    live pool, the objects on its recycle stack together with the objects
    held by the client through its handles are at most as many as the
    factory was invoked; with a limit, the factory has been invoked at most
    [limit()] times, so these objects are at most [limit()]. *)
Theorem outstanding_objects_bounded :
  ∀ (ops : list Op) (s : Program) (id : PoolId) (self : RaiiObjectPool),
    run ops initial = Some s →
    pools (world s) !! id = Some self →
    (length (_poolContainer self) + checked_out id (handles s)
     ≤ invoked (_factory self))%nat
    ∧ (limit self ≠ Unlimited →
       N.of_nat (invoked (_factory self)) ≤ limit self
       ∧ pooled self + N.of_nat (checked_out id (handles s)) ≤ limit self).
Proof.
  intros ops s id self Hrun Hw.
  destruct (consistent_run ops initial s consistent_initial Hrun) as [Hpools _].
  destruct (Hpools id self Hw) as (_ & _ & _ & _ & Hlim & Hcnt).
  split; [exact Hcnt|]. intros Hne. specialize (Hlim Hne).
  unfold limit, pooled in *. lia.
Qed.

Lemma outstanding_objects_bounded_witness :
  run sample_ops initial = Some sample_state
  ∧ pools (world sample_state) !! 0%nat = Some sample_pool
  ∧ limit sample_pool ≠ Unlimited
  ∧ (length (_poolContainer sample_pool) + checked_out 0%nat (handles sample_state)
     ≤ invoked (_factory sample_pool))%nat
  ∧ N.of_nat (invoked (_factory sample_pool)) ≤ limit sample_pool
  ∧ pooled sample_pool + N.of_nat (checked_out 0%nat (handles sample_state))
    ≤ limit sample_pool.
Proof.
  assert (run sample_ops initial = Some sample_state) as Hrun by reflexivity.
  assert (pools (world sample_state) !! 0%nat = Some sample_pool) as Hw
    by reflexivity.
  assert (limit sample_pool ≠ Unlimited) as Hl by discriminate.
  destruct (outstanding_objects_bounded sample_ops sample_state 0%nat sample_pool Hrun Hw)
    as [H1 H2].
  split; [exact Hrun|]. split; [exact Hw|]. split; [exact Hl|].
  split; [exact H1|exact (H2 Hl)].
Defined.

(** X10.  A pool that holds recycled objects hands one out.  In every
    reachable state, if the recycle stack of a live pool is not empty,
    [acquire] returns its top entry, which is a full handle whose policy
    refers to this pool; the entry is removed, and neither the counter nor
    the factory is touched, whatever the limit is. *)
Theorem recycled_object_is_handed_out :
  ∀ (ops : list Op) (s : Program) (id : PoolId) (self : RaiiObjectPool),
    run ops initial = Some s →
    pools (world s) !! id = Some self →
    pooled self ≠ 0 →
    ∃ p rest,
      _poolContainer self = mkUniquePtr (Some p) (mkDeleter (Some id)) :: rest
      ∧ acquire_on id (world s) =
          Some (Ok (mkUniquePtr (Some p) (mkDeleter (Some id))),
                store id (mkPool (_limit self) (_allocated self) (_factory self) rest)
                      (world s)).
Proof.
  intros ops s id self Hrun Hw Hp.
  destruct (consistent_run ops initial s consistent_initial Hrun) as [Hpools _].
  destruct (Hpools id self Hw) as (_ & _ & Hst & _).
  destruct (_poolContainer self) as [|top rest] eqn:Hs.
  - unfold pooled in Hp. rewrite Hs in Hp. done.
  - apply Forall_cons in Hst as [[p ->] _]. exists p, rest.
    split; [reflexivity|]. by apply acquire_on_pop.
Qed.

Lemma recycled_object_is_handed_out_witness :
  run sample_ops initial = Some sample_state
  ∧ pools (world sample_state) !! 0%nat = Some sample_pool
  ∧ pooled sample_pool ≠ 0
  ∧ ∃ p rest,
      _poolContainer sample_pool = mkUniquePtr (Some p) (mkDeleter (Some 0%nat)) :: rest
      ∧ acquire_on 0%nat (world sample_state) =
          Some (Ok (mkUniquePtr (Some p) (mkDeleter (Some 0%nat))),
                store 0%nat (mkPool (_limit sample_pool) (_allocated sample_pool)
                               (_factory sample_pool) rest)
                      (world sample_state)).
Proof.
  assert (run sample_ops initial = Some sample_state) as Hrun by reflexivity.
  assert (pools (world sample_state) !! 0%nat = Some sample_pool) as Hw
    by reflexivity.
  assert (pooled sample_pool ≠ 0) as Hp by discriminate.
  split; [exact Hrun|]. split; [exact Hw|]. split; [exact Hp|].
  exact (recycled_object_is_handed_out sample_ops sample_state 0%nat sample_pool
           Hrun Hw Hp).
Defined.

(** X11.  When [acquire] returns an empty handle.  In every reachable
    state, a call of [acquire] on a live pool that returns a handle
    holding no object found the recycle stack empty, and either the limit
    was reached (then the handle has no owner and the world is unchanged)
    or the factory was invoked and returned a null pointer (then the
    handle refers to the pool and the invocation was counted). *)
Theorem empty_result_characterised :
  ∀ (ops : list Op) (s : Program) (id : PoolId) (self : RaiiObjectPool)
    (h : UniquePtrToObject) (w' : World),
    run ops initial = Some s →
    pools (world s) !! id = Some self →
    acquire_on id (world s) = Some (Ok h, w') →
    to_bool h = false →
    _poolContainer self = []
    ∧ ((h = empty_handle ∧ w' = world s
        ∧ limit self ≠ Unlimited ∧ limit self ≤ allocated self)
       ∨ (h = mkUniquePtr None (mkDeleter (Some id))
          ∧ outcome (_factory self) (invoked (_factory self)) = Returns None
          ∧ (limit self = Unlimited ∨ allocated self < limit self)
          ∧ ∃ self', pools w' !! id = Some self'
              ∧ allocated self' = size_incr (allocated self)
              ∧ invoked (_factory self') = S (invoked (_factory self)))).
Proof.
  intros ops s id self h w' Hrun Hw Hacq Hh.
  destruct (consistent_run ops initial s consistent_initial Hrun) as [Hpools _].
  destruct (Hpools id self Hw) as (_ & _ & Hst & _).
  unfold acquire_on in Hacq. rewrite Hw in Hacq. unfold acquire in Hacq.
  destruct (_poolContainer self) as [|top rest] eqn:Hs.
  - split; [reflexivity|].
    destruct ((_limit self =? Unlimited) || (_allocated self <? _limit self)) eqn:Hroom.
    + right. unfold call in Hacq.
      destruct (outcome (_factory self) (invoked (_factory self))) as [[p|]|e] eqn:Ho;
        [| |done]; injection Hacq as <- <-; [done|].
      split; [reflexivity|]. split; [reflexivity|]. split.
      * apply orb_true_iff in Hroom as [Hr|Hr].
        -- left. by apply N.eqb_eq in Hr.
        -- right. by apply N.ltb_lt in Hr.
      * eexists. split; [apply lookup_store|]. done.
    + left. injection Hacq as <- <-. apply orb_false_iff in Hroom as [H1 H2].
      split; [reflexivity|]. split; [by apply store_same|].
      split; [by apply N.eqb_neq|by apply N.ltb_ge].
  - injection Hacq as <- <-.
    apply Forall_cons in Hst as [Htop _].
    apply checked_out_from_full in Htop. congruence.
Qed.

Lemma empty_result_characterised_witness :
  run [OpCreate fresh_objects 1; OpAcquire 0%nat] initial
    = Some (mkProgram
              (mkWorld {[0%nat := mkPool 1 1 (mkFactory fresh_objects 1) []]} 1%nat [])
              [mkUniquePtr (Some 100%nat) (mkDeleter (Some 0%nat))])
  ∧ ∃ s self h w',
      pools (world s) !! 0%nat = Some self
      ∧ acquire_on 0%nat (world s) = Some (Ok h, w')
      ∧ to_bool h = false
      ∧ _poolContainer self = []
      ∧ ((h = empty_handle ∧ w' = world s
          ∧ limit self ≠ Unlimited ∧ limit self ≤ allocated self)
         ∨ (h = mkUniquePtr None (mkDeleter (Some 0%nat))
            ∧ outcome (_factory self) (invoked (_factory self)) = Returns None
            ∧ (limit self = Unlimited ∨ allocated self < limit self)
            ∧ ∃ self', pools w' !! 0%nat = Some self'
                ∧ allocated self' = size_incr (allocated self)
                ∧ invoked (_factory self') = S (invoked (_factory self)))).
Proof.
  assert (run [OpCreate fresh_objects 1; OpAcquire 0%nat] initial
          = Some (mkProgram
                    (mkWorld {[0%nat := mkPool 1 1 (mkFactory fresh_objects 1) []]}
                             1%nat [])
                    [mkUniquePtr (Some 100%nat) (mkDeleter (Some 0%nat))])) as Hrun
    by reflexivity.
  split; [exact Hrun|].
  eexists _, (mkPool 1 1 (mkFactory fresh_objects 1) []), empty_handle, _.
  assert (pools (world (mkProgram
            (mkWorld {[0%nat := mkPool 1 1 (mkFactory fresh_objects 1) []]} 1%nat [])
            [mkUniquePtr (Some 100%nat) (mkDeleter (Some 0%nat))])) !! 0%nat
          = Some (mkPool 1 1 (mkFactory fresh_objects 1) [])) as Hw by reflexivity.
  assert (acquire_on 0%nat (world (mkProgram
            (mkWorld {[0%nat := mkPool 1 1 (mkFactory fresh_objects 1) []]} 1%nat [])
            [mkUniquePtr (Some 100%nat) (mkDeleter (Some 0%nat))]))
          = Some (Ok empty_handle,
                  mkWorld {[0%nat := mkPool 1 1 (mkFactory fresh_objects 1) []]}
                          1%nat [])) as Hacq by reflexivity.
  split; [exact Hw|]. split; [exact Hacq|]. split; [reflexivity|].
  exact (empty_result_characterised _ _ 0%nat _ _ _ Hrun Hw Hacq eq_refl).
Defined.

(** X12.  Taking a recycled object and giving it back restores the pool.
    In every reachable state, if the recycle stack of a live pool is not
    empty, a call of [acquire] followed by the disposal of the handle it
    returned (the insertion succeeding) leaves every pool as it was; the
    only event is the call of [add]. *)
Theorem acquire_release_round_trip :
  ∀ (ops : list Op) (s : Program) (id : PoolId) (self : RaiiObjectPool),
    run ops initial = Some s →
    pools (world s) !! id = Some self →
    pooled self ≠ 0 →
    ∃ h p w1 w2,
      acquire_on id (world s) = Some (Ok h, w1)
      ∧ get h = Some p
      ∧ dispose [] h w1 = (Ok (), w2)
      ∧ pools w2 = pools (world s)
      ∧ next_pool w2 = next_pool (world s)
      ∧ trace w2 = EvAdd id p :: trace (world s).
Proof.
  intros ops s id self Hrun Hw Hp.
  destruct (consistent_run ops initial s consistent_initial Hrun) as [Hpools _].
  destruct (Hpools id self Hw) as (_ & _ & Hst & _).
  destruct (_poolContainer self) as [|top rest] eqn:Hs.
  { unfold pooled in Hp. rewrite Hs in Hp. done. }
  apply Forall_cons in Hst as [[p ->] _].
  eexists _, p, _, _.
  rewrite (acquire_on_pop id (world s) self _ rest Hw Hs).
  split; [reflexivity|]. split; [reflexivity|].
  unfold dispose, unique_ptr_dtor. simpl get. simpl get_deleter. cbv beta match.
  erewrite operator_call_recycles; [|reflexivity|apply lookup_store].
  split; [reflexivity|]. simpl. rewrite insert_insert_eq, <- Hs, pool_eta.
  split; [by apply insert_id|]. split; reflexivity.
Qed.

Lemma acquire_release_round_trip_witness :
  run sample_ops initial = Some sample_state
  ∧ pools (world sample_state) !! 0%nat = Some sample_pool
  ∧ pooled sample_pool ≠ 0
  ∧ ∃ h p w1 w2,
      acquire_on 0%nat (world sample_state) = Some (Ok h, w1)
      ∧ get h = Some p
      ∧ dispose [] h w1 = (Ok (), w2)
      ∧ pools w2 = pools (world sample_state)
      ∧ next_pool w2 = next_pool (world sample_state)
      ∧ trace w2 = EvAdd 0%nat p :: trace (world sample_state).
Proof.
  assert (run sample_ops initial = Some sample_state) as Hrun by reflexivity.
  assert (pools (world sample_state) !! 0%nat = Some sample_pool) as Hw
    by reflexivity.
  assert (pooled sample_pool ≠ 0) as Hp by discriminate.
  split; [exact Hrun|]. split; [exact Hw|]. split; [exact Hp|].
  exact (acquire_release_round_trip sample_ops sample_state 0%nat sample_pool
           Hrun Hw Hp).
Defined.

(** X13.  Pools do not interfere.  In every reachable state, a client
    operation that works on another pool (or on none: a creation, the
    disposal of an empty handle) leaves a live pool exactly as it is:
    same limit, counter, factory and recycle stack. *)
Theorem other_pools_untouched :
  ∀ (ops : list Op) (op : Op) (s s' : Program) (id : PoolId) (self : RaiiObjectPool),
    run ops initial = Some s →
    step op s = Some s' →
    pools (world s) !! id = Some self →
    target op s ≠ Some id →
    pools (world s') !! id = Some self.
Proof.
  intros ops op s s' id self Hrun Hstep Hw Ht.
  destruct (consistent_run ops initial s consistent_initial Hrun) as [Hpools _].
  destruct op as [f lim|id0|k faults|id0 faults]; simpl in Hstep, Ht.
  - destruct (lim <=? SIZE_MAX); [|done]. injection Hstep as <-. simpl.
    destruct (Hpools id self Hw) as [Hid _].
    by rewrite lookup_insert_ne by lia.
  - assert (id0 ≠ id) as Hne by congruence.
    unfold acquire_on in Hstep.
    destruct (pools (world s) !! id0) as [self0|]; [|done].
    destruct (acquire id0 self0) as [[h|e|] self0']; [| |done];
      injection Hstep as <-; simpl; by rewrite lookup_insert_ne.
  - destruct (handles s !! k) as [h|] eqn:Hk; [|done].
    destruct (dispose faults h (world s)) as [r w'] eqn:Hdis.
    destruct r; [|done..]. injection Hstep as <-. simpl.
    apply dispose_effect in Hdis as [_ [->|(id0 & self0 & [p ->] & Hw0 & ->)]];
      [done|].
    simpl in Ht. assert (id0 ≠ id) as Hne by congruence.
    by rewrite lookup_insert_ne.
  - assert (id0 ≠ id) as Hne by congruence.
    unfold reset, RaiiObjectPool_dtor in Hstep.
    destruct (pools (world s) !! id0) as [self0|]; [|done].
    rewrite destructor_loop_deletes in Hstep. injection Hstep as <-. simpl.
    by rewrite lookup_delete_ne.
Qed.

Lemma other_pools_untouched_witness :
  run two_pools_ops initial = Some two_pools
  ∧ step (OpAcquire 1%nat) two_pools = Some two_pools_next
  ∧ pools (world two_pools) !! 0%nat = Some first_pool
  ∧ target (OpAcquire 1%nat) two_pools ≠ Some 0%nat
  ∧ pools (world two_pools_next) !! 0%nat = Some first_pool.
Proof.
  assert (run two_pools_ops initial = Some two_pools) as Hrun by reflexivity.
  assert (step (OpAcquire 1%nat) two_pools = Some two_pools_next) as Hstep
    by reflexivity.
  assert (pools (world two_pools) !! 0%nat = Some first_pool) as Hw by reflexivity.
  assert (target (OpAcquire 1%nat) two_pools ≠ Some 0%nat) as Ht by discriminate.
  split; [exact Hrun|]. split; [exact Hstep|]. split; [exact Hw|].
  split; [exact Ht|].
  exact (other_pools_untouched two_pools_ops (OpAcquire 1%nat) two_pools two_pools_next
           0%nat first_pool Hrun Hstep Hw Ht).
Defined.

(** ** Runs in which nothing goes wrong *)

(** The handle [acquire] returns has no owner only when it is empty. *)
Lemma acquire_handle_owner this self h self' :
  Forall (checked_out_from this) (_poolContainer self) →
  acquire this self = (Ok h, self') →
  _ptrToOwnerPool (get_deleter h) = Some this
  ∨ (_ptrToOwnerPool (get_deleter h) = None ∧ get h = None).
Proof.
  intros Hst. unfold acquire. destruct (_poolContainer self) as [|top rest].
  - destruct ((_limit self =? Unlimited) || (_allocated self <? _limit self)).
    + unfold call. destruct (outcome _ _); [|done]. intros [= <- <-]. by left.
    + intros [= <- <-]. by right.
  - apply Forall_cons in Hst as [[p ->] _]. intros [= <- <-]. by left.
Qed.

Lemma calm_step op s s' :
  consistent s → calm s → quiet_op op = true → step op s = Some s' → calm s'.
Proof.
  intros [Hpools _] (Hdom & Hhs & Htr) Hq Hstep.
  destruct op as [f lim|id0|k faults|id0 faults]; simpl in Hstep, Hq; [| | |done].
  - destruct (lim <=? SIZE_MAX); [|done]. injection Hstep as <-.
    split_and!; simpl; [| |done].
    + intros id. destruct (decide (id = next_pool (world s))) as [->|Hne].
      * rewrite lookup_insert_eq. split; [eauto|lia].
      * rewrite lookup_insert_ne by done. rewrite <- Hdom. lia.
    + eapply Forall_impl; [exact Hhs|]. intros h Hh. simpl in Hh.
      destruct (_ptrToOwnerPool (get_deleter h)); [lia|done].
  - unfold acquire_on in Hstep.
    destruct (pools (world s) !! id0) as [self0|] eqn:Hw0; [|done].
    destruct (acquire id0 self0) as [r self0'] eqn:Hacq.
    assert (∀ id, is_Some (<[id0 := self0']> (pools (world s)) !! id)
                  ↔ is_Some (pools (world s) !! id)) as Hsame.
    { intros id. destruct (decide (id = id0)) as [->|Hne].
      - rewrite lookup_insert_eq, Hw0. split; eauto.
      - by rewrite lookup_insert_ne. }
    destruct r as [h|e|]; [| |done]; injection Hstep as <-;
      (split_and!; simpl; [intros id; by rewrite Hsame| |done]); [|done].
    apply Forall_app. split; [done|]. constructor; [|constructor].
    destruct (Hpools id0 self0 Hw0) as (_ & _ & Hst & _).
    destruct (acquire_handle_owner _ _ _ _ Hst Hacq) as [->|[-> ?]]; [|done].
    apply Hdom. eauto.
  - destruct faults; [|done].
    destruct (handles s !! k) as [h|] eqn:Hk; [|done].
    assert (Forall (λ h, match _ptrToOwnerPool (get_deleter h) with
                         | Some id => (id < next_pool (world s))%nat
                         | None => get h = None
                         end) (delete k (handles s))) as Hhs'.
    { rewrite delete_take_drop. apply Forall_app. split.
      - by apply Forall_take.
      - by apply Forall_drop. }
    pose proof (proj1 (Forall_lookup _ _) Hhs k h Hk) as Hh. simpl in Hh.
    unfold dispose, unique_ptr_dtor in Hstep.
    destruct (get h) as [p|] eqn:Hp.
    + destruct (_ptrToOwnerPool (get_deleter h)) as [id|] eqn:Hd; [|done].
      apply Hdom in Hh as [self Hw].
      rewrite (operator_call_recycles _ p _ id self Hd Hw) in Hstep.
      injection Hstep as <-. split_and!; simpl; [|done|].
      * intros id'. rewrite Hdom. destruct (decide (id' = id)) as [->|Hne].
        -- rewrite lookup_insert_eq, Hw. split; eauto.
        -- by rewrite lookup_insert_ne.
      * constructor; [done|exact Htr].
    + injection Hstep as <-. by split_and!.
Qed.

(** X14.  Nothing is deleted while the pools live.  In a run in which no
    pool is dropped and no insertion fails, whatever the factories do
    (return, return null, throw) and in whatever order handles are
    acquired and released, [delete] is never executed: every object ever
    constructed is still held by a handle or by a recycle stack. *)
Theorem nothing_deleted_while_pools_live :
  ∀ (ops : list Op) (s : Program),
    forallb quiet_op ops = true →
    run ops initial = Some s →
    ∀ p, EvDelete p ∉ trace (world s).
Proof.
  intros ops s Hq Hrun.
  assert (calm s) as (_ & _ & Htr).
  { assert (consistent initial ∧ calm initial) as Hinit.
    { split; [apply consistent_initial|]. split_and!; simpl; [|constructor..].
      intros id. rewrite lookup_empty. split; [lia|by intros [? ?]]. }
    revert Hq Hrun Hinit. generalize initial.
    induction ops as [|op ops IH]; intros s0 Hq Hrun [Hc Hcalm]; simpl in *.
    - by injection Hrun as <-.
    - apply andb_true_iff in Hq as [Hq1 Hq2].
      destruct (step op s0) as [s1|] eqn:Hstep; [|done].
      apply (IH s1 Hq2 Hrun). split.
      + by eapply consistent_step.
      + by eapply calm_step. }
  intros p Hin. rewrite Forall_forall in Htr. by apply (Htr _ Hin p).
Qed.

Lemma nothing_deleted_while_pools_live_witness :
  forallb quiet_op sample_ops = true
  ∧ run sample_ops initial = Some sample_state
  ∧ ∀ p, EvDelete p ∉ trace (world sample_state).
Proof.
  assert (forallb quiet_op sample_ops = true) as Hq by reflexivity.
  assert (run sample_ops initial = Some sample_state) as Hrun by reflexivity.
  split; [exact Hq|]. split; [exact Hrun|].
  exact (nothing_deleted_while_pools_live sample_ops sample_state Hq Hrun).
Defined.

(** ** Creation *)

(** X15.  A new pool is fresh.  In every reachable state, [create] yields
    an identifier that denotes no live pool and to which no handle held by
    the client refers, so no object of an older pool can find its way into
    the new one.  The new pool has the given limit, [allocated()] and
    [pooled()] equal to 0 and a factory that has not been invoked; every
    other pool is left as it is. *)
Theorem created_pool_is_fresh :
  ∀ (ops : list Op) (s : Program) (f : nat → FactoryResult) (lim : N),
    run ops initial = Some s →
    let (id, w') := create (mkFactory f 0) lim (world s) in
    pools (world s) !! id = None
    ∧ Forall (λ h, _ptrToOwnerPool (get_deleter h) ≠ Some id) (handles s)
    ∧ checked_out id (handles s) = 0%nat
    ∧ (∃ self, pools w' !! id = Some self
         ∧ limit self = lim ∧ allocated self = 0 ∧ pooled self = 0
         ∧ invoked (_factory self) = 0%nat)
    ∧ (∀ id', id' ≠ id → pools w' !! id' = pools (world s) !! id')
    ∧ trace w' = trace (world s).
Proof.
  intros ops s f lim Hrun.
  destruct (consistent_run ops initial s consistent_initial Hrun) as [Hpools Hhs].
  unfold create. split_and!.
  - destruct (pools (world s) !! next_pool (world s)) as [self|] eqn:Hw; [|done].
    destruct (Hpools _ self Hw) as [Hid _]. lia.
  - eapply Forall_impl; [exact Hhs|]. intros h Hh Heq.
    specialize (Hh _ Heq). lia.
  - by apply checked_out_unknown.
  - eexists. split; [apply lookup_insert_eq|]. done.
  - intros id' Hne. simpl. by rewrite lookup_insert_ne.
  - reflexivity.
Qed.

Lemma created_pool_is_fresh_witness :
  run sample_ops initial = Some sample_state
  ∧ let (id, w') := create (mkFactory throwing_factory 0) 7 (world sample_state) in
    pools (world sample_state) !! id = None
    ∧ Forall (λ h, _ptrToOwnerPool (get_deleter h) ≠ Some id) (handles sample_state)
    ∧ checked_out id (handles sample_state) = 0%nat
    ∧ (∃ self, pools w' !! id = Some self
         ∧ limit self = 7 ∧ allocated self = 0 ∧ pooled self = 0
         ∧ invoked (_factory self) = 0%nat)
    ∧ (∀ id', id' ≠ id → pools w' !! id' = pools (world sample_state) !! id')
    ∧ trace w' = trace (world sample_state).
Proof.
  assert (run sample_ops initial = Some sample_state) as Hrun by reflexivity.
  split; [exact Hrun|].
  exact (created_pool_is_fresh sample_ops sample_state throwing_factory 7 Hrun).
Defined.
